(** * fastify-plugin-storage: the registration shim over a storage engine

    A shallow embedding of [src/index.ts] (the plugin function, the two
    factory helpers and the [onClose] hook) together with the properties the
    specification states about them.

    JavaScript objects live in a heap and are named by references, so that
    "the same object" is equality of references; [async]/[await] code is
    sequential code in a state-and-exception monad, a rejected promise that
    is awaited being a thrown exception. *)

From stdpp Require Import base option list strings gmap.

(** ** Completions *)

(** A thrown JavaScript value.  [TypeError] is what the runtime raises when a
    value is used as something it is not; [Raised] is anything a collaborator
    (the storage engine, the caller's [close] callback) throws. *)
Inductive exn : Type :=
| TypeError (msg : string)
| Raised (msg : string).

Inductive result (A : Type) : Type :=
| Ok (a : A)
| Throw (e : exn).

Arguments Ok {A} a.
Arguments Throw {A} e.

Abbreviation ref := nat (only parsing).

(** ** The storage engine, as the shim consumes it

    [unstorage] is an external collaborator.  The shim is written against its
    interface only: instance creation, item operations, snapshot capture and
    restore, mount enumeration, [unmount], [unwatch] and [dispose].  A method
    takes the state of the storage instance and gives back its completion and
    the new state. *)
Class Engine : Type := {
  Options : Type;
  Storage : Type;
  Value : Type;
  Snapshot : Type;
  createStorage : Options → result Storage;
  getItem : string → Storage → result (option Value) * Storage;
  setItem : string → Value → Storage → result unit * Storage;
  removeItem : string → Storage → result unit * Storage;
  snapshot : string → Storage → result Snapshot * Storage;
  restoreSnapshot : Snapshot → option string → Storage → result unit * Storage;
  unwatch : Storage → result unit * Storage;
  getMounts : string → Storage → result (list string) * Storage;
  unmount : string → bool → Storage → result unit * Storage;
  dispose : Storage → result unit * Storage;
}.

(** ** Observable lifecycle calls

    One event per call the [onClose] hook makes, recorded when the call has
    settled, with its completion. *)
Inductive event : Type :=
| EClose (r : result unit)
| EUnwatch (storage : ref) (r : result unit)
| EGetMounts (storage : ref) (base : string) (r : result (list string))
| EUnmount (storage : ref) (base : string) (force : bool) (r : result unit)
| EDispose (storage : ref) (r : result unit).

(** A value handed to [decorate]: a plain value, or an object with a
    [getter]. *)
Inductive decoration : Type :=
| DValue (v : ref)
| DAccessor (getter : ref).

Section ShimModel.
Context {E : Engine}.

(** [FastifyStorageOptions]: the engine's options plus the optional [close]
    callback, in one object; [createStorage] reads its own part of it.  The
    callback takes no argument.  Of what a callback does, the model keeps its
    completion and the change it makes to the storage instance of the
    registration; what else it may do to the host is left out, and no
    statement below is about it. *)
Record FastifyStorageOptions : Type := {
  engine_options : Options;
  close : option (Storage → result unit * Storage);
}.

(** Heap objects: the storage instance, the closures the plugin creates
    (each with the variables it captures), prefix views and requests. *)
Inductive obj : Type :=
| OStorage (st : Storage)
| OPrefixed (target : ref) (prefix : string)
| OGetter (storage : ref)
| OPrefixFactory (storage : ref)
| OSnapshotFn (storage : ref) (restore : option ref)
| ORestoreFn (storage : ref)
| OCloseHook (opts : FastifyStorageOptions) (storage : ref)
| ORequest.

Record world : Type := World {
  w_heap : list obj;
  w_server : gmap string decoration;
  w_request : gmap string decoration;
  w_hooks : list (string * ref);
  w_done : nat;
  w_trace : list event;
}.

Definition set_heap (f : list obj → list obj) (w : world) : world :=
  match w with
  | World h sv rq hk d tr => World (f h) sv rq hk d tr
  end.

Definition add_event (ev : event) (w : world) : world :=
  match w with
  | World h sv rq hk d tr => World h sv rq hk d (tr ++ [ev])
  end.

(** *** The monad of sequential JavaScript code *)
Definition M (A : Type) : Type := world → result A * world.

Definition ret {A} (a : A) : M A := λ w, (Ok a, w).

Definition throw {A} (e : exn) : M A := λ w, (Throw e, w).

Definition bind {A B} (m : M A) (k : A → M B) : M B :=
  λ w, match m w with
       | (Ok a, w') => k a w'
       | (Throw e, w') => (Throw e, w')
       end.

(** [try { body } finally { fin }]: [fin] runs on every exit of [body]; a
    throw of [fin] replaces the completion of [body]. *)
Definition try_finally {A} (body : M A) (fin : M unit) : M A :=
  λ w, match body w with
       | (r, w1) =>
           match fin w1 with
           | (Ok _, w2) => (r, w2)
           | (Throw e, w2) => (Throw e, w2)
           end
       end.

(** [for (const x of xs) await body(x)] *)
Fixpoint for_of {A} (xs : list A) (body : A → M unit) : M unit :=
  match xs with
  | [] => ret tt
  | x :: xs' => bind (body x) (λ _, for_of xs' body)
  end.

Definition logged {A} (ev : result A → event) (m : M A) : M A :=
  λ w, match m w with (r, w') => (r, add_event (ev r) w') end.

Definition alloc (o : obj) : M ref :=
  λ w, match w with
       | World h sv rq hk n tr => (Ok (length h), World (h ++ [o]) sv rq hk n tr)
       end.

(** A method call on the storage instance behind [storage]. *)
Definition call_method {A} (storage : ref)
    (m : Storage → result A * Storage) : M A :=
  λ w, match w_heap w !! storage with
       | Some (OStorage st) =>
           match m st with
           | (r, st') => (r, set_heap (<[storage := OStorage st']>) w)
           end
       | _ => (Throw (TypeError "not a storage instance"), w)
       end.

#[global] Instance M_ret : MRet M := @ret.
#[global] Instance M_bind : MBind M := λ A B k m, bind m k.

(** *** The host framework *)

(** Modelled from the spec: the host framework's decoration mechanism, which
    "accepts named capability attachments on server and request objects" and
    is not part of this repository.  A decoration of the server is a property
    of the one server object.  The host's own validation of names is outside
    the model. *)
Definition decorate (name : string) (d : decoration) : M unit :=
  λ w, match w with
       | World h sv rq hk n tr => (Ok tt, World h (<[name := d]> sv) rq hk n tr)
       end.

(** Modelled from the spec: the host framework's decoration of the request.
    The property lives on the prototype every request object inherits from,
    so it is one table for all requests. *)
Definition decorateRequest (name : string) (d : decoration) : M unit :=
  λ w, match w with
       | World h sv rq hk n tr => (Ok tt, World h sv (<[name := d]> rq) hk n tr)
       end.

(** Modelled from the spec: the host framework's lifecycle-hook mechanism,
    which "accepts a callback to run on shutdown". *)
Definition addHook (name : string) (fn : ref) : M unit :=
  λ w, match w with
       | World h sv rq hk n tr => (Ok tt, World h sv rq (hk ++ [(name, fn)]) n tr)
       end.

(** Modelled from the spec: the host's completion callback of a plugin
    registration. *)
Definition done : M unit :=
  λ w, match w with
       | World h sv rq hk n tr => (Ok tt, World h sv rq hk (S n) tr)
       end.

(** Calling a getter [() => storage]. *)
Definition call_getter (g : ref) : M ref :=
  λ w, match w_heap w !! g with
       | Some (OGetter storage) => (Ok storage, w)
       | _ => (Throw (TypeError "getter is not a function"), w)
       end.

(** Modelled from the spec: reading a decorated property on the host.  A
    plain value is the value, an accessor runs its getter, a name that is not
    decorated reads as [undefined]. *)
Definition read_property (table : gmap string decoration) (name : string)
    : M (option ref) :=
  match table !! name with
  | None => mret None
  | Some (DValue v) => mret (Some v)
  | Some (DAccessor g) => v ← call_getter g; mret (Some v)
  end.

Definition server_get (name : string) : M (option ref) :=
  λ w, read_property (w_server w) name w.

(** [fastify.name] used as an object: [undefined] cannot be. *)
Definition server_property (name : string) : M ref :=
  v ← server_get name;
  match v with
  | Some r => mret r
  | None => throw (TypeError "undefined")
  end.

Definition new_request : M ref := alloc ORequest.

Definition request_get (req : ref) (name : string) : M (option ref) :=
  λ w, match w_heap w !! req with
       | Some ORequest => read_property (w_request w) name w
       | _ => (Throw (TypeError "not a request"), w)
       end.

(** *** Storage handles *)

(** Modelled from the spec: [prefixStorage] of the external engine, which
    makes "a derived handle that transparently prepends a fixed string to
    every key before delegating to the underlying storage instance", a
    "stateless wrapper, created on demand, not cached". *)
Definition prefixStorage (storage : ref) (prefix : string) : M ref :=
  alloc (OPrefixed storage prefix).

(** Modelled from the spec: a keyed method called on a handle.  A handle is
    the storage instance itself, or a prefix view of it, which "delegates all
    operations to the underlying storage instance with prefix
    concatenation". *)
Definition on_handle {A} (h : ref) (key : string)
    (m : string → Storage → result A * Storage) : M A :=
  λ w, match w_heap w !! h with
       | Some (OStorage _) => call_method h (m key) w
       | Some (OPrefixed target prefix) => call_method target (m (prefix +:+ key)) w
       | _ => (Throw (TypeError "not a storage handle"), w)
       end.

Definition storage_getItem (h : ref) (key : string) : M (option Value) :=
  on_handle h key getItem.

Definition storage_setItem (h : ref) (key : string) (v : Value) : M unit :=
  on_handle h key (λ k, setItem k v).

Definition storage_removeItem (h : ref) (key : string) : M unit :=
  on_handle h key removeItem.

(** The lifecycle methods of the storage instance, each leaving its event. *)
Definition storage_unwatch (storage : ref) : M unit :=
  logged (EUnwatch storage) (call_method storage unwatch).

Definition storage_getMounts (storage : ref) (base : string) : M (list string) :=
  logged (EGetMounts storage base) (call_method storage (getMounts base)).

Definition storage_unmount (storage : ref) (base : string) (force : bool) : M unit :=
  logged (EUnmount storage base force) (call_method storage (unmount base force)).

Definition storage_dispose (storage : ref) : M unit :=
  logged (EDispose storage) (call_method storage dispose).

(** *** [src/index.ts] *)

(** [createPrefixedStorage(storage)]: the closure
    [(prefix) => prefixStorage(storage, prefix)]. *)
Definition createPrefixedStorage (storage : ref) : M ref :=
  alloc (OPrefixFactory storage).

(** Calling the closure [createPrefixedStorage] returned. *)
Definition call_storagePrefix (f : ref) (prefix : string) : M ref :=
  λ w, match w_heap w !! f with
       | Some (OPrefixFactory storage) => prefixStorage storage prefix w
       | _ => (Throw (TypeError "storagePrefix is not a function"), w)
       end.

(** [createSnapshotedStorage(storage)]: the function [fn], then the
    assignment of its [restore] property. *)
Definition assign_restore (fn restore : ref) : M unit :=
  λ w, match w_heap w !! fn with
       | Some (OSnapshotFn storage _) =>
           (Ok tt, set_heap (<[fn := OSnapshotFn storage (Some restore)]>) w)
       | _ => (Throw (TypeError "cannot set property restore"), w)
       end.

Definition createSnapshotedStorage (storage : ref) : M ref :=
  fn ← alloc (OSnapshotFn storage None);
  restore ← alloc (ORestoreFn storage);
  assign_restore fn restore;;
  mret fn.

(** [storageSnapshot(base)] *)
Definition call_storageSnapshot (fn : ref) (base : string) : M Snapshot :=
  λ w, match w_heap w !! fn with
       | Some (OSnapshotFn storage _) => call_method storage (snapshot base) w
       | _ => (Throw (TypeError "storageSnapshot is not a function"), w)
       end.

(** [storageSnapshot.restore(snapshot, base)]; [base] is [None] when the
    caller leaves it out. *)
Definition call_restore (fn : ref) (snap : Snapshot) (base : option string) : M unit :=
  λ w, match w_heap w !! fn with
       | Some (OSnapshotFn _ (Some restore)) =>
           match w_heap w !! restore with
           | Some (ORestoreFn storage) =>
               call_method storage (restoreSnapshot snap base) w
           | _ => (Throw (TypeError "restore is not a function"), w)
           end
       | _ => (Throw (TypeError "restore is not a function"), w)
       end.

(** [await opts.close?.()] *)
Definition call_close (opts : FastifyStorageOptions) (storage : ref) : M unit :=
  match close opts with
  | None => mret tt
  | Some cb => logged EClose (call_method storage cb)
  end.

(** The [finally] block of the hook. *)
Definition cleanup (storage : ref) : M unit :=
  storage_unwatch storage;;
  mounts ← storage_getMounts storage "";
  for_of mounts (λ base, storage_unmount storage base true);;
  storage_dispose storage.

(** The [onClose] hook. *)
Definition onClose (opts : FastifyStorageOptions) (storage : ref) : M unit :=
  try_finally (call_close opts storage) (cleanup storage).

(** The host running a registered hook. *)
Definition run_hook (fn : ref) : M unit :=
  λ w, match w_heap w !! fn with
       | Some (OCloseHook opts storage) => onClose opts storage w
       | _ => (Throw (TypeError "hook is not a function"), w)
       end.

(** [const storage = createStorage(opts)] *)
Definition new_storage (opts : FastifyStorageOptions) : M ref :=
  match createStorage (engine_options opts) with
  | Ok st => alloc (OStorage st)
  | Throw e => throw e
  end.

Definition plugin (opts : FastifyStorageOptions) : M unit :=
  storage ← new_storage opts;
  getter ← alloc (OGetter storage);
  decorate "storage" (DAccessor getter);;
  getter' ← alloc (OGetter storage);
  decorateRequest "storage" (DAccessor getter');;
  storagePrefix ← createPrefixedStorage storage;
  decorate "storagePrefix" (DValue storagePrefix);;
  decorateRequest "storagePrefix" (DValue storagePrefix);;
  storageSnapshot ← createSnapshotedStorage storage;
  decorate "storageSnapshot" (DValue storageSnapshot);;
  decorateRequest "storageSnapshot" (DValue storageSnapshot);;
  hook ← alloc (OCloseHook opts storage);
  addHook "onClose" hook;;
  done.

End ShimModel.

(** ** Two engines

    The theorems about the wiring hold for every [Engine].  The two below are
    the in-memory backend the specification's scenarios use, and a scripted
    double whose lifecycle methods fail on demand. *)

Module Memory.

(** [strip_prefix p s] is [Some r] exactly when [s] is [p] followed by [r]. *)
Fixpoint strip_prefix (p s : string) : option string :=
  match p, s with
  | EmptyString, _ => Some s
  | String a p', String b s' => if decide (a = b) then strip_prefix p' s' else None
  | String _ _, EmptyString => None
  end.

Inductive driver : Type :=
| MemoryDriver
| UnknownDriver (name : string).

Record state : Type := State {
  items : gmap string string;
  mounts : list string;
  watching : bool;
  disposed : bool;
}.

Definition set_items (f : gmap string string → gmap string string) (st : state) : state :=
  State (f (items st)) (mounts st) (watching st) (disposed st).

(** Modelled from the spec: the engine's snapshot of [base], "a point-in-time
    capture of all key/value pairs under a given base path"; each key is kept
    relative to [base]. *)
Definition capture (base : string) (m : gmap string string) : list (string * string) :=
  omap (λ kv, (λ rel, (rel, kv.2)) <$> strip_prefix base kv.1) (map_to_list m).

(** Modelled from the spec: the engine's restore of a snapshot to [base],
    writing the captured pairs back under [base]. *)
Definition write_back (base : string) (snap : list (string * string))
    (m : gmap string string) : gmap string string :=
  foldr (λ kv acc, <[base +:+ kv.1 := kv.2]> acc) m snap.

(** Modelled from the spec: the external storage engine with its in-memory
    backend, which is not part of this repository.  Items are "get/set/delete
    -style item operations" on a map from keys to values; a snapshot is "an
    opaque capture of all key/value pairs under a base path at a point in
    time, restorable later"; restoring without a base restores into the root
    base [""], as the repository's snapshot test does; a "mount" is "a backend
    attached to the storage instance at a given base path", the root mount
    being there from creation.  An unknown driver is a configuration error
    raised by instance creation. *)
#[export] Instance memory_engine : Engine := {|
  Options := driver;
  Storage := state;
  Value := string;
  Snapshot := list (string * string);
  createStorage o :=
    match o with
    | MemoryDriver => Ok (State ∅ [""] false false)
    | UnknownDriver name => Throw (Raised name)
    end;
  getItem key st := (Ok (items st !! key), st);
  setItem key v st := (Ok tt, set_items (<[key := v]>) st);
  removeItem key st := (Ok tt, set_items (delete key) st);
  snapshot base st := (Ok (capture base (items st)), st);
  restoreSnapshot snap base st :=
    (Ok tt, set_items (write_back (default "" base) snap) st);
  unwatch st := (Ok tt, State (items st) (mounts st) false (disposed st));
  getMounts base st :=
    (Ok (filter (λ m, is_Some (strip_prefix base m)) (mounts st)), st);
  unmount base force st :=
    (Ok tt, State (items st) (filter (λ m, m ≠ base) (mounts st))
                  (watching st) (disposed st));
  dispose st := (Ok tt, State (items st) (mounts st) (watching st) true);
|}.

End Memory.

Module Scripted.

(** What each lifecycle method of the double does: the exception it raises,
    if any, and the mounts it enumerates. *)
Record script : Type := Script {
  create_error : option exn;
  unwatch_error : option exn;
  mount_bases : list string;
  unmount_error : string → option exn;
  dispose_error : option exn;
}.

Definition completion (err : option exn) : result unit :=
  match err with
  | None => Ok tt
  | Some e => Throw e
  end.

#[export] Instance scripted_engine : Engine := {|
  Options := script;
  Storage := script;
  Value := string;
  Snapshot := unit;
  createStorage o :=
    match create_error o with
    | None => Ok o
    | Some e => Throw e
    end;
  getItem _ st := (Ok None, st);
  setItem _ _ st := (Ok tt, st);
  removeItem _ st := (Ok tt, st);
  snapshot _ st := (Ok tt, st);
  restoreSnapshot _ _ st := (Ok tt, st);
  unwatch st := (completion (unwatch_error st), st);
  getMounts _ st := (Ok (mount_bases st), st);
  unmount base _ st := (completion (unmount_error st base), st);
  dispose st := (completion (dispose_error st), st);
|}.

End Scripted.

(** ** What the properties are stated with *)

Section ShimStatements.
Context {E : Engine}.

(** The world a successful registration leaves: seven new objects after the
    existing heap (the storage instance first), the three names on the server
    and on the request, one more hook, [done] called. *)
Definition registered (opts : FastifyStorageOptions) (st : Storage) (w : world) : world :=
  match w with
  | World h sv rq hk n tr =>
      let s := length h in
      World (h ++ [OStorage st; OGetter s; OGetter s; OPrefixFactory s;
                   OSnapshotFn s (Some (s + 5)); ORestoreFn s; OCloseHook opts s])
            (<["storageSnapshot" := DValue (s + 4)]>
               (<["storagePrefix" := DValue (s + 3)]>
                  (<["storage" := DAccessor (s + 1)]> sv)))
            (<["storageSnapshot" := DValue (s + 4)]>
               (<["storagePrefix" := DValue (s + 3)]>
                  (<["storage" := DAccessor (s + 2)]> rq)))
            (hk ++ [("onClose", s + 6)])
            (S n)
            tr
  end.

(** The capabilities of one registration as the server exposes them in [w]:
    [storage] reads as the instance [s], [storagePrefix] as the factory [pf]
    over [s], [storageSnapshot] as the function [fn] over [s] whose [restore]
    property is [r], also over [s]. *)
Definition registration (w : world) (s pf fn r : ref) : Prop :=
  server_get "storage" w = (Ok (Some s), w) ∧
  server_get "storagePrefix" w = (Ok (Some pf), w) ∧
  server_get "storageSnapshot" w = (Ok (Some fn), w) ∧
  w_heap w !! pf = Some (OPrefixFactory s) ∧
  w_heap w !! fn = Some (OSnapshotFn s (Some r)) ∧
  w_heap w !! r = Some (ORestoreFn s).

(** The three names as a request object reads them. *)
Definition request_sees (w : world) (req s pf fn : ref) : Prop :=
  request_get req "storage" w = (Ok (Some s), w) ∧
  request_get req "storagePrefix" w = (Ok (Some pf), w) ∧
  request_get req "storageSnapshot" w = (Ok (Some fn), w).

(** [w'] is a later world of [w]: the decorations are the ones of [w], every
    object of [w] is still there, a storage instance possibly in a new state
    and the closures as they were. *)
Definition later_world (w w' : world) : Prop :=
  w_server w' = w_server w ∧
  w_request w' = w_request w ∧
  ∀ i o, w_heap w !! i = Some o →
    match o with
    | OStorage _ => ∃ st', w_heap w' !! i = Some (OStorage st')
    | _ => w_heap w' !! i = Some o
    end.

(** The names the plugin decorates. *)
Definition capability_names : gset string :=
  {[ "storage"; "storagePrefix"; "storageSnapshot" ]}.

(** A host nothing has been registered on. *)
Definition empty_world : world := World [] ∅ ∅ [] 0 [].

(** The events of unmounting [bases] one after the other, each with the force
    flag and each succeeding. *)
Definition unmounted (s : ref) (bases : list string) : list event :=
  (λ base, EUnmount s base true (Ok tt)) <$> bases.

(** The shapes a run of the [finally] block can leave in the trace, with the
    completion of the block: the first step that throws ends it. *)
Inductive cleanup_trace (s : ref) : list event → result unit → Prop :=
| cleanup_unwatch_threw e :
    cleanup_trace s [EUnwatch s (Throw e)] (Throw e)
| cleanup_getMounts_threw e :
    cleanup_trace s [EUnwatch s (Ok tt); EGetMounts s "" (Throw e)] (Throw e)
| cleanup_unmount_threw pre base post e :
    cleanup_trace s
      ([EUnwatch s (Ok tt); EGetMounts s "" (Ok (pre ++ base :: post))]
         ++ unmounted s pre ++ [EUnmount s base true (Throw e)])
      (Throw e)
| cleanup_disposed bases r :
    cleanup_trace s
      ([EUnwatch s (Ok tt); EGetMounts s "" (Ok bases)]
         ++ unmounted s bases ++ [EDispose s r])
      r.


(** What the close callback leaves in the trace. *)
Definition close_events (opts : FastifyStorageOptions) (r : result unit) : list event :=
  match close opts with
  | None => []
  | Some _ => [EClose r]
  end.

(** Completion of [try { r0 } finally { rc }]. *)
Definition finally_completion (r0 rc : result unit) : result unit :=
  match rc with
  | Ok _ => r0
  | Throw e => Throw e
  end.




(** Write [v] at [key] through [storagePrefix(prefix)], read [key'] through
    the base handle. *)
Definition write_prefixed_read_base (s pf : ref) (prefix key : string) (v : Value)
    (key' : string) : M (option Value) :=
  view ← call_storagePrefix pf prefix;
  storage_setItem view key v;;
  storage_getItem s key'.

(** Write [v] at [key] through the base handle, read [key'] through
    [storagePrefix(prefix)]. *)
Definition write_base_read_prefixed (s pf : ref) (prefix key : string) (v : Value)
    (key' : string) : M (option Value) :=
  storage_setItem s key v;;
  view ← call_storagePrefix pf prefix;
  storage_getItem view key'.

End ShimStatements.

(** ** Concrete hosts

    The snapshot scenario of the specification on the in-memory engine, and
    shutdowns of the scripted double. *)

Definition memory_options : @FastifyStorageOptions Memory.memory_engine :=
  @Build_FastifyStorageOptions Memory.memory_engine Memory.MemoryDriver None.

Definition unknown_driver_options : @FastifyStorageOptions Memory.memory_engine :=
  @Build_FastifyStorageOptions Memory.memory_engine (Memory.UnknownDriver "redis") None.

(** The store after ["foo"] has been set to ["original"]. *)
Definition memory_store : Memory.state :=
  Memory.State (<["foo" := "original"]> ∅) [""] false false.

(** Registration on an empty host, then [storage.setItem("foo", "original")]
    on the instance, which is object [0]. *)
Definition memory_world : @world Memory.memory_engine :=
  (bind (plugin memory_options)
     (λ _, @storage_setItem Memory.memory_engine 0 "foo" "original")
     empty_world).2.

Section MemoryTests.
#[local] Existing Instance Memory.memory_engine.

(** The repository's snapshot test: set, snapshot the root base, change,
    restore without a base, read. *)
Definition snapshot_test : M (option string) :=
  plugin memory_options;;
  storage ← server_property "storage";
  storageSnapshot ← server_property "storageSnapshot";
  storage_setItem storage "foo" "original";;
  snap ← call_storageSnapshot storageSnapshot "";
  storage_setItem storage "foo" "changed";;
  call_restore storageSnapshot snap None;;
  storage_getItem storage "foo".

(** The repository's prefix test: write through [storagePrefix("users:")],
    read through the base handle. *)
Definition prefix_test : M (option string) :=
  plugin memory_options;;
  storage ← server_property "storage";
  storagePrefix ← server_property "storagePrefix";
  users ← call_storagePrefix storagePrefix "users:";
  storage_setItem users "u1" "Alice";;
  storage_getItem storage "users:u1".

(** Registration, one request, and the three names read on the server and
    on the request. *)
Definition decoration_test : M (list (option ref)) :=
  plugin memory_options;;
  req ← new_request;
  a ← server_get "storage";
  b ← request_get req "storage";
  c ← server_get "storagePrefix";
  d ← request_get req "storagePrefix";
  e ← server_get "storageSnapshot";
  f ← request_get req "storageSnapshot";
  mret [a; b; c; d; e; f].

End MemoryTests.

(** Three mounts, the second of which cannot be unmounted. *)
Definition busy_script : Scripted.script :=
  Scripted.Script None None [""; "cache"; "tmp"]
    (λ base, if decide (base = "cache") then Some (Raised "busy") else None)
    None.

(** Two mounts and no failure. *)
Definition quiet_script : Scripted.script :=
  Scripted.Script None None [""; "cache"] (λ _, None) None.

Definition failing_close (st : Scripted.script) : result unit * Scripted.script :=
  (Throw (Raised "close failed"), st).

Definition scripted_options (sc : Scripted.script)
    : @FastifyStorageOptions Scripted.scripted_engine :=
  @Build_FastifyStorageOptions Scripted.scripted_engine sc (Some failing_close).

Definition scripted_world (sc : Scripted.script) : @world Scripted.scripted_engine :=
  (plugin (scripted_options sc) empty_world).2.

(** ** The hook and the factories, further *)

(** The exception an event carries, when its call threw. *)
Definition event_error (ev : event) : option exn :=
  match ev with
  | EClose (Throw e) => Some e
  | EUnwatch _ (Throw e) => Some e
  | EGetMounts _ _ (Throw e) => Some e
  | EUnmount _ _ _ (Throw e) => Some e
  | EDispose _ (Throw e) => Some e
  | _ => None
  end.

Definition is_close (ev : event) : bool :=
  match ev with
  | EClose _ => true
  | _ => false
  end.

Section HookStatements.
Context {E : Engine}.

(** [await opts.close?.()] on the state of the storage instance. *)
Definition run_close (opts : FastifyStorageOptions) (st : Storage) : result unit * Storage :=
  match close opts with
  | None => (Ok tt, st)
  | Some cb => cb st
  end.

(** The [for (const { base } of mounts) await storage.unmount(base, true)]
    loop on the state of the storage instance. *)
Fixpoint unmount_each (bases : list string) (st : Storage) : result unit * Storage :=
  match bases with
  | [] => (Ok tt, st)
  | base :: rest =>
      match unmount base true st with
      | (Ok _, st') => unmount_each rest st'
      | (Throw e, st') => (Throw e, st')
      end
  end.

(** [w] with the storage instance [s] in state [st] and the events [evs]
    after its trace. *)
Definition stepped (w : world) (s : ref) (st : Storage) (evs : list event) : world :=
  match w with
  | World h sv rq hk n tr => World (<[s := OStorage st]> h) sv rq hk n (tr ++ evs)
  end.

(** The [finally] block on the state [st] of the storage instance [s]: the
    engine calls it makes, each on the state the call before it left, the
    events of these calls, the block's completion and the state it leaves.
    The first call that throws ends the block. *)
Inductive cleanup_run (s : ref) (st : Storage)
    : list event → result unit → Storage → Prop :=
| run_unwatch_threw e st2 :
    unwatch st = (Throw e, st2) →
    cleanup_run s st [EUnwatch s (Throw e)] (Throw e) st2
| run_getMounts_threw st2 e st3 :
    unwatch st = (Ok tt, st2) →
    getMounts "" st2 = (Throw e, st3) →
    cleanup_run s st [EUnwatch s (Ok tt); EGetMounts s "" (Throw e)] (Throw e) st3
| run_unmount_threw st2 pre base post st3 st4 e st5 :
    unwatch st = (Ok tt, st2) →
    getMounts "" st2 = (Ok (pre ++ base :: post), st3) →
    unmount_each pre st3 = (Ok tt, st4) →
    unmount base true st4 = (Throw e, st5) →
    cleanup_run s st
      ([EUnwatch s (Ok tt); EGetMounts s "" (Ok (pre ++ base :: post))]
         ++ unmounted s pre ++ [EUnmount s base true (Throw e)])
      (Throw e) st5
| run_disposed st2 bases st3 st4 rd st5 :
    unwatch st = (Ok tt, st2) →
    getMounts "" st2 = (Ok bases, st3) →
    unmount_each bases st3 = (Ok tt, st4) →
    dispose st4 = (rd, st5) →
    cleanup_run s st
      ([EUnwatch s (Ok tt); EGetMounts s "" (Ok bases)]
         ++ unmounted s bases ++ [EDispose s rd])
      rd st5.

(** For one run of the hook: after the callback's event, if there is a
    callback, the run calls [unwatch], enumerates the mounts at the root
    base, unmounts each of them with the force flag and calls [dispose]
    last, whatever these calls complete with. *)
Definition cleanup_order_claim (opts : FastifyStorageOptions) (s : ref) (w : world) : Prop :=
  ∃ r0 ru bases rs rd,
    length rs = length bases ∧
    w_trace (onClose opts s w).2
      = w_trace w ++ close_events opts r0
          ++ [EUnwatch s ru; EGetMounts s "" (Ok bases)]
          ++ zip_with (λ base r, EUnmount s base true r) bases rs
          ++ [EDispose s rd].

(** What the [finally] block of the hook leaves alone in [w']: the
    decorations, the hooks,
    the [done] count, the size of the heap and every object but [s]. *)
Definition hook_frame (s : ref) (w w' : world) : Prop :=
  w_server w' = w_server w ∧
  w_request w' = w_request w ∧
  w_hooks w' = w_hooks w ∧
  w_done w' = w_done w ∧
  length (w_heap w') = length (w_heap w) ∧
  ∀ i, i ≠ s → w_heap w' !! i = w_heap w !! i.

End HookStatements.

Section HookFrames.
Context {E : Engine}.

(** A run of [m] leaves alone what [hook_frame] names and keeps every object
    ([later_world]). *)
Definition keeps {A} (s : ref) (m : M A) : Prop :=
  ∀ w, hook_frame s w (m w).2 ∧ later_world w (m w).2.

End HookFrames.

(** A storage whose [unwatch] throws. *)
Definition stuck_script : Scripted.script :=
  Scripted.Script None (Some (Raised "watcher")) [""; "cache"] (λ _, None) None.

(** ** [generate-drivers.mjs]

    The script that writes one re-export module per driver declaration file
    of the engine.  Node's [fs] and [path.resolve] are what the script is
    handed: an interface, as the storage engine is; every call is recorded
    with its completion. *)

Module GenerateDrivers.

Class FileSystem : Type := {
  Fs : Type;
  resolve : string → string;
  rmSync : string → bool → bool → Fs → result unit * Fs;
  mkdirSync : string → bool → Fs → result unit * Fs;
  readdirSync : string → Fs → result (list string) * Fs;
  writeFileSync : string → string → string → Fs → result unit * Fs;
}.

Inductive fs_event : Type :=
| FRm (path : string) (recursive force : bool) (r : result unit)
| FMkdir (path : string) (recursive : bool) (r : result unit)
| FReaddir (path : string) (r : result (list string))
| FWrite (file content encoding : string) (r : result unit).

(** [s.endsWith(suffix)] *)
Fixpoint ends_with (suffix s : string) : bool :=
  if bool_decide (s = suffix) then true
  else match s with
       | EmptyString => false
       | String _ s' => ends_with suffix s'
       end.

(** Case folding of the [i] flag on one character: the ASCII letters. *)
Definition to_lower (c : Ascii.ascii) : Ascii.ascii :=
  let n := Ascii.nat_of_ascii c in
  if bool_decide (65 ≤ n ≤ 90) then Ascii.ascii_of_nat (n + 32) else c.

Fixpoint lower (s : string) : string :=
  match s with
  | EmptyString => EmptyString
  | String c s' => String (to_lower c) (lower s')
  end.

(** [s.replace(/\.d\.ts$/i, '')]: the first position from which the rest of
    [s] is [.d.ts] up to case loses that rest; without one, [s] is kept. *)
Fixpoint replace_dts (s : string) : string :=
  if bool_decide (lower s = ".d.ts") then EmptyString
  else match s with
       | EmptyString => EmptyString
       | String c s' => String c (replace_dts s')
       end.

Definition LF : string := String (Ascii.ascii_of_nat 10) EmptyString.
Definition CR : string := String (Ascii.ascii_of_nat 13) EmptyString.

(** [FindUpMeta] *)
Record meta : Type := Meta {
  source : string;
  content : string;
}.

(** The body of the [map] callback of [findup]. *)
Definition meta_of (file : string) : meta :=
  let name := replace_dts file in
  let input := "drivers/" +:+ name in
  Meta ("src/" +:+ input +:+ ".ts")
       ("export { default } from 'unstorage/" +:+ input +:+ "';" +:+ LF
          +:+ "export * from 'unstorage/" +:+ input +:+ "';" +:+ CR +:+ LF).

(** [.filter(file => file.endsWith('.d.ts')).map(...)] on a listing. *)
Definition metas_of (listing : list string) : list meta :=
  meta_of <$> filter (λ file, ends_with ".d.ts" file = true) listing.

(** The module written for the driver [name]. *)
Definition meta_for (name : string) : meta :=
  Meta ("src/drivers/" +:+ name +:+ ".ts")
       ("export { default } from 'unstorage/drivers/" +:+ name +:+ "';" +:+ LF
          +:+ "export * from 'unstorage/drivers/" +:+ name +:+ "';" +:+ CR +:+ LF).

Section Script.
Context {FS : FileSystem}.

(** The disk and the calls made so far. *)
Definition F (A : Type) : Type := Fs * list fs_event → result A * (Fs * list fs_event).

Definition fbind {A B} (m : F A) (k : A → F B) : F B :=
  λ d, match m d with
       | (Ok a, d') => k a d'
       | (Throw e, d') => (Throw e, d')
       end.

Definition fs_call {A} (ev : result A → fs_event) (op : Fs → result A * Fs) : F A :=
  λ d, match d with
       | (fs, tr) => match op fs with (r, fs') => (r, (fs', tr ++ [ev r])) end
       end.

(** [fs.mkdirSync(dir, { recursive: true })] *)
Definition mkdir (dir : string) : F unit :=
  fs_call (FMkdir dir true) (mkdirSync dir true).

(** [try { fs.rmSync(dir, { recursive: true, force: true }) } catch {}] *)
Definition rmdir (dir : string) : F unit :=
  λ d, match fs_call (FRm dir true true) (rmSync dir true true) d with
       | (_, d') => (Ok tt, d')
       end.

(** [fs.writeFileSync(file, content, 'utf8')] *)
Definition writer (file content : string) : F unit :=
  fs_call (FWrite file content "utf8") (writeFileSync file content "utf8").

(** [fs.readdirSync(path.resolve(dir)).filter(...).map(...)] *)
Definition findup (dir : string) : F (list meta) :=
  fbind (fs_call (FReaddir (resolve dir)) (readdirSync (resolve dir)))
        (λ listing d, (Ok (metas_of listing), d)).

(** [metas.forEach(meta => writer(meta.source, meta.content))] *)
Fixpoint writes (metas : list meta) : F unit :=
  match metas with
  | [] => λ d, (Ok tt, d)
  | m :: rest => fbind (writer (source m) (content m)) (λ _, writes rest)
  end.

(** The three statements the script ends with. *)
Definition main : F unit :=
  fbind (rmdir "src/drivers") (λ _,
  fbind (mkdir "src/drivers") (λ _,
  fbind (findup "node_modules/unstorage/drivers") writes)).

(** The events of writing [metas] one after the other, each succeeding. *)
Definition written (metas : list meta) : list fs_event :=
  (λ m, FWrite (source m) (content m) "utf8" (Ok tt)) <$> metas.

(** The shapes a run of the script can leave in the trace, with its
    completion: the removal first, whatever becomes of it, and then the
    first call that throws ends the run. *)
Inductive script_trace : list fs_event → result unit → Prop :=
| script_mkdir_threw r e :
    script_trace [FRm "src/drivers" true true r; FMkdir "src/drivers" true (Throw e)]
                 (Throw e)
| script_readdir_threw r e :
    script_trace [FRm "src/drivers" true true r; FMkdir "src/drivers" true (Ok tt);
                  FReaddir (resolve "node_modules/unstorage/drivers") (Throw e)]
                 (Throw e)
| script_write_threw r listing pre m post e :
    metas_of listing = pre ++ m :: post →
    script_trace ([FRm "src/drivers" true true r; FMkdir "src/drivers" true (Ok tt);
                   FReaddir (resolve "node_modules/unstorage/drivers") (Ok listing)]
                    ++ written pre ++ [FWrite (source m) (content m) "utf8" (Throw e)])
                 (Throw e)
| script_completed r listing :
    script_trace ([FRm "src/drivers" true true r; FMkdir "src/drivers" true (Ok tt);
                   FReaddir (resolve "node_modules/unstorage/drivers") (Ok listing)]
                    ++ written (metas_of listing))
                 (Ok tt).

(** The exception a call other than the removal carries, when it threw. *)
Definition fs_event_error (ev : fs_event) : option exn :=
  match ev with
  | FMkdir _ _ (Throw e) => Some e
  | FReaddir _ (Throw e) => Some e
  | FWrite _ _ _ (Throw e) => Some e
  | _ => None
  end.

End Script.

(** A disk double: what the directory lists, and the exception each call
    raises, if any. *)
Record disk : Type := Disk {
  listing_of : list string;
  rm_error : option exn;
  mkdir_error : option exn;
  readdir_error : option exn;
  write_error : string → option exn;
}.

#[export] Instance disk_fs : FileSystem := {|
  Fs := disk;
  resolve p := "/repo/" +:+ p;
  rmSync _ _ _ d := (Scripted.completion (rm_error d), d);
  mkdirSync _ _ d := (Scripted.completion (mkdir_error d), d);
  readdirSync _ d :=
    match readdir_error d with
    | None => (Ok (listing_of d), d)
    | Some e => (Throw e, d)
    end;
  writeFileSync file _ _ d := (Scripted.completion (write_error d file), d);
|}.

(** A driver directory as the engine ships it, and a removal that fails. *)
Definition drivers_disk : disk :=
  Disk ["memory.d.ts"; "memory.mjs"; "redis.d.ts"; "redis.cjs"; "utils"]
       (Some (Raised "EPERM")) None None (λ _, None).

(** The same, with a file that cannot be written. *)
Definition readonly_disk : disk :=
  Disk ["memory.d.ts"; "memory.mjs"; "redis.d.ts"; "redis.cjs"; "utils"]
       None None None
       (λ file, if decide (file = "src/drivers/redis.ts") then Some (Raised "EACCES") else None).

End GenerateDrivers.

(** ** Properties *)

Section ShimProperties.
Context {E : Engine}.

(** Unfolds the monad and the allocations and updates of the world. *)
Ltac run_world :=
  unfold mbind, M_bind, mret, M_ret, bind, ret, alloc, decorate, decorateRequest,
    addHook, done;
  cbn beta iota;
  cbn [w_heap w_server w_request w_hooks w_done w_trace set_heap add_event fst snd].

Lemma createSnapshotedStorage_run storage w :
  createSnapshotedStorage storage w =
    (Ok (length (w_heap w)),
     set_heap (λ h, h ++ [OSnapshotFn storage (Some (S (length h))); ORestoreFn storage]) w).
Proof.
  destruct w as [h sv rq hk n tr].
  unfold createSnapshotedStorage, assign_restore. run_world.
  rewrite <- !app_assoc. cbn [app].
  rewrite (list_lookup_middle h _ _ (length h)) by done.
  rewrite length_app. cbn [length set_heap].
  rewrite insert_app_r_alt by done. rewrite Nat.sub_diag, Nat.add_1_r.
  reflexivity.
Qed.

Lemma plugin_registers opts st w :
  createStorage (engine_options opts) = Ok st →
  plugin opts w = (Ok tt, registered opts st w).
Proof.
  intros Hc. destruct w as [h sv rq hk n tr].
  unfold plugin, new_storage, createPrefixedStorage. rewrite Hc. run_world.
  rewrite createSnapshotedStorage_run. run_world.
  rewrite !length_app, <- !app_assoc. cbn [length app registered].
  rewrite <- !Nat.add_assoc, <- Nat.add_succ_r. cbn [Nat.add].
  reflexivity.
Qed.

Lemma plugin_throws opts e w :
  createStorage (engine_options opts) = Throw e →
  plugin opts w = (Throw e, w).
Proof.
  intros Hc. unfold plugin, new_storage. rewrite Hc. reflexivity.
Qed.

(** [plugin] is one of the two: what instance creation decides. *)
Lemma plugin_run opts w :
  plugin opts w =
    match createStorage (engine_options opts) with
    | Ok st => (Ok tt, registered opts st w)
    | Throw e => (Throw e, w)
    end.
Proof.
  destruct (createStorage (engine_options opts)) eqn:Hc.
  - by apply plugin_registers.
  - by apply plugin_throws.
Qed.

Lemma registered_lookup opts st w i :
  w_heap (registered opts st w) !! (length (w_heap w) + i) =
    [OStorage st; OGetter (length (w_heap w)); OGetter (length (w_heap w));
     OPrefixFactory (length (w_heap w));
     OSnapshotFn (length (w_heap w)) (Some (length (w_heap w) + 5));
     ORestoreFn (length (w_heap w));
     OCloseHook opts (length (w_heap w))] !! i.
Proof.
  destruct w as [h sv rq hk n tr]. cbn [registered w_heap].
  rewrite lookup_app_r by lia. f_equal. lia.
Qed.

Lemma registered_server opts st w :
  w_server (registered opts st w) =
    <["storageSnapshot" := DValue (length (w_heap w) + 4)]>
      (<["storagePrefix" := DValue (length (w_heap w) + 3)]>
         (<["storage" := DAccessor (length (w_heap w) + 1)]> (w_server w))).
Proof. by destruct w. Qed.

Lemma registered_request opts st w :
  w_request (registered opts st w) =
    <["storageSnapshot" := DValue (length (w_heap w) + 4)]>
      (<["storagePrefix" := DValue (length (w_heap w) + 3)]>
         (<["storage" := DAccessor (length (w_heap w) + 2)]> (w_request w))).
Proof. by destruct w. Qed.

Lemma registered_rest opts st w :
  w_hooks (registered opts st w) = w_hooks w ++ [("onClose", length (w_heap w) + 6)] ∧
  w_done (registered opts st w) = S (w_done w) ∧
  w_trace (registered opts st w) = w_trace w ∧
  w_heap (registered opts st w) =
    w_heap w ++ [OStorage st; OGetter (length (w_heap w)); OGetter (length (w_heap w));
                 OPrefixFactory (length (w_heap w));
                 OSnapshotFn (length (w_heap w)) (Some (length (w_heap w) + 5));
                 ORestoreFn (length (w_heap w));
                 OCloseHook opts (length (w_heap w))].
Proof. by destruct w. Qed.

Lemma read_property_value table name v w :
  table !! name = Some (DValue v) →
  read_property table name w = (Ok (Some v), w).
Proof. intros H. unfold read_property. by rewrite H. Qed.

Lemma read_property_accessor table name g v w :
  table !! name = Some (DAccessor g) →
  w_heap w !! g = Some (OGetter v) →
  read_property table name w = (Ok (Some v), w).
Proof.
  intros H Hg. unfold read_property. rewrite H.
  unfold mbind, M_bind, bind, call_getter. by rewrite Hg.
Qed.

Lemma registered_registration opts st w :
  let s := length (w_heap w) in
  registration (registered opts st w) s (s + 3) (s + 4) (s + 5).
Proof.
  intros s; subst s. unfold registration, server_get.
  rewrite !registered_lookup, registered_server.
  repeat split; try done.
  - eapply read_property_accessor.
    + by rewrite lookup_insert_ne, lookup_insert_ne, lookup_insert_eq.
    + by rewrite registered_lookup.
  - apply read_property_value.
    by rewrite lookup_insert_ne, lookup_insert_eq.
  - apply read_property_value. by rewrite lookup_insert_eq.
Qed.

Lemma registered_request_reads opts st w :
  let s := length (w_heap w) in
  let w' := registered opts st w in
  read_property (w_request w') "storage" w' = (Ok (Some s), w') ∧
  read_property (w_request w') "storagePrefix" w' = (Ok (Some (s + 3)), w') ∧
  read_property (w_request w') "storageSnapshot" w' = (Ok (Some (s + 4)), w').
Proof.
  intros s w'; subst s w'. rewrite registered_request.
  repeat split.
  - eapply read_property_accessor.
    + by rewrite lookup_insert_ne, lookup_insert_ne, lookup_insert_eq.
    + by rewrite registered_lookup.
  - apply read_property_value.
    by rewrite lookup_insert_ne, lookup_insert_eq.
  - apply read_property_value. by rewrite lookup_insert_eq.
Qed.

Lemma read_property_inv table name v w :
  read_property table name w = (Ok (Some v), w) →
  table !! name = Some (DValue v) ∨
  ∃ g, table !! name = Some (DAccessor g) ∧ w_heap w !! g = Some (OGetter v).
Proof.
  unfold read_property. destruct (table !! name) as [[v'|g]|]; [| |done].
  - intros [= ->]. by left.
  - unfold mbind, M_bind, bind, call_getter.
    destruct (w_heap w !! g) as [[]|] eqn:Hg; try done.
    intros [= ->]. right. by exists g.
Qed.

Lemma later_world_refl w : later_world w w.
Proof.
  repeat split. intros i [] Hi; eauto.
Qed.

Lemma later_world_trans w1 w2 w3 :
  later_world w1 w2 → later_world w2 w3 → later_world w1 w3.
Proof.
  intros (Hs1 & Hr1 & Hh1) (Hs2 & Hr2 & Hh2).
  split; [congruence|]. split; [congruence|].
  intros i o Hi. specialize (Hh1 i o Hi).
  destruct o; try (by apply (Hh2 _ _ Hh1)).
  destruct Hh1 as [st' Hst']. apply (Hh2 _ _ Hst').
Qed.

Lemma later_world_read w w' table name v :
  later_world w w' →
  read_property table name w = (Ok (Some v), w) →
  read_property table name w' = (Ok (Some v), w').
Proof.
  intros (_ & _ & Hh) [Hv | (g & Hg & Hgh)]%read_property_inv.
  - by apply read_property_value.
  - eapply read_property_accessor; [done|]. apply (Hh _ _ Hgh).
Qed.

Lemma later_world_registration w w' s pf fn r :
  later_world w w' →
  registration w s pf fn r → registration w' s pf fn r.
Proof.
  intros Hl (H1 & H2 & H3 & H4 & H5 & H6).
  pose proof Hl as (Hs & _ & Hh).
  unfold registration, server_get in *. rewrite Hs.
  repeat split; try (by eapply later_world_read).
  - apply (Hh _ _ H4).
  - apply (Hh _ _ H5).
  - apply (Hh _ _ H6).
Qed.

Lemma later_world_alloc o w : later_world w (set_heap (λ h, h ++ [o]) w).
Proof.
  destruct w as [h sv rq hk n tr].
  repeat split. intros i o' Hi. cbn [set_heap w_heap] in *.
  destruct o'; try (by apply lookup_app_l_Some).
  eexists. by apply lookup_app_l_Some.
Qed.

Lemma later_world_call_method {A} s (m : Storage → result A * Storage) w :
  later_world w (call_method s m w).2.
Proof.
  unfold call_method.
  destruct (w_heap w !! s) as [o|] eqn:Hs; [|apply later_world_refl].
  destruct o; try apply later_world_refl.
  destruct (m st) as [r st']. cbn [snd].
  destruct w as [h sv rq hk n tr].
  repeat split. intros i o Hi. cbn [set_heap w_heap] in *.
  destruct (decide (i = s)) as [->|Hne].
  - rewrite Hs in Hi. injection Hi as <-.
    exists st'. apply list_lookup_insert_eq. by eapply lookup_lt_Some.
  - rewrite list_lookup_insert_ne by done.
    destruct o; eauto.
Qed.

(** What the host and the callers do after registration leads to later worlds:
    creating a request, calling a storage method through a handle, making a
    prefix view. *)
Lemma new_request_later w req w' :
  new_request w = (Ok req, w') →
  later_world w w' ∧ w_heap w' !! req = Some ORequest.
Proof.
  destruct w as [h sv rq hk n tr]. unfold new_request, alloc. intros [= <- <-].
  split; [apply (later_world_alloc ORequest (World h sv rq hk n tr))|].
  cbn [w_heap]. by apply list_lookup_middle.
Qed.

Lemma on_handle_later {A} h key (m : string → Storage → result A * Storage) w :
  later_world w (on_handle h key m w).2.
Proof.
  unfold on_handle. destruct (w_heap w !! h) as [[]|];
    try apply later_world_refl; apply later_world_call_method.
Qed.

Lemma call_storagePrefix_later f prefix w :
  later_world w (call_storagePrefix f prefix w).2.
Proof.
  unfold call_storagePrefix, prefixStorage.
  destruct (w_heap w !! f) as [[]|]; try apply later_world_refl.
  destruct w as [h sv rq hk n tr].
  apply (later_world_alloc _ (World h sv rq hk n tr)).
Qed.

(** C1.  A successful registration creates one storage instance, at a fresh
    reference, and exposes it as [storage] on the server and on every request
    object; [storagePrefix] and [storageSnapshot] are on both as one factory
    and one function, both over that instance.  This stays so in every later
    world, for every request object there is. *)
Theorem registration_shares_capabilities opts w w' :
  plugin opts w = (Ok tt, w') →
  ∃ st s pf fn r,
    createStorage (engine_options opts) = Ok st ∧
    w_heap w !! s = None ∧
    w_heap w' !! s = Some (OStorage st) ∧
    registration w' s pf fn r ∧
    ∀ w'' req,
      later_world w' w'' →
      w_heap w'' !! req = Some ORequest →
      registration w'' s pf fn r ∧
      request_sees w'' req s pf fn ∧
      ∃ st', w_heap w'' !! s = Some (OStorage st').
Proof.
  rewrite plugin_run.
  destruct (createStorage (engine_options opts)) as [st|e] eqn:Hc; [|done].
  intros [= <-].
  exists st, (length (w_heap w)), (length (w_heap w) + 3),
    (length (w_heap w) + 4), (length (w_heap w) + 5).
  split; [done|]. split; [by apply lookup_ge_None_2|].
  assert (Hs : w_heap (registered opts st w) !! length (w_heap w) = Some (OStorage st)).
  { pose proof (registered_lookup opts st w 0) as H0.
    by rewrite Nat.add_0_r in H0. }
  split; [done|]. split; [apply registered_registration|].
  intros w'' req Hl Hreq. split; [|split].
  - eapply later_world_registration; [done|]. apply registered_registration.
  - destruct (registered_request_reads opts st w) as (H1 & H2 & H3).
    pose proof Hl as (_ & Hrq & _).
    unfold request_sees, request_get. rewrite Hreq, Hrq.
    repeat split; by eapply later_world_read.
  - destruct Hl as (_ & _ & Hh). apply (Hh _ _ Hs).
Qed.

(** C6.  When instance creation raises, registration raises the same
    exception at once, before anything is decorated or hooked and before
    [done] is called; and registration raises nothing else: whenever it
    raises, instance creation raised just that. *)
Theorem configuration_error_aborts_registration opts w :
  (∀ e, createStorage (engine_options opts) = Throw e →
        plugin opts w = (Throw e, w)) ∧
  (∀ e w', plugin opts w = (Throw e, w') →
           createStorage (engine_options opts) = Throw e ∧ w' = w).
Proof.
  split.
  - intros e He. by apply plugin_throws.
  - intros e w'. rewrite plugin_run.
    destruct (createStorage (engine_options opts)); [done|].
    by intros [= -> ->].
Qed.

Lemma capability_names_union (X : gset string) :
  {[ "storageSnapshot" ]} ∪ ({[ "storagePrefix" ]} ∪ ({[ "storage" ]} ∪ X))
    = capability_names ∪ X.
Proof.
  unfold capability_names.
  by rewrite !(assoc_L (∪)), (comm_L (∪) {[_]} {[_]}), <- (assoc_L (∪) {[_]} {[_]}),
    (comm_L (∪) {[_]} (_ ∪ _)), <- (assoc_L (∪) {[_]} {[_]}).
Qed.

(** C7.  A successful registration adds exactly the three names to the
    server and the same three to the request, leaving every other name as it
    was; appends one [onClose] hook, the closure over the options and the new
    storage instance; leaves every existing object, the other hooks and the
    trace untouched; and calls [done] once. *)
Theorem registration_frame opts w w' :
  plugin opts w = (Ok tt, w') →
  dom (w_server w') = capability_names ∪ dom (w_server w) ∧
  dom (w_request w') = capability_names ∪ dom (w_request w) ∧
  (∀ name, name ∉ capability_names →
           w_server w' !! name = w_server w !! name ∧
           w_request w' !! name = w_request w !! name) ∧
  (∃ hook, w_hooks w' = w_hooks w ++ [("onClose"%string, hook)] ∧
           w_heap w' !! hook = Some (OCloseHook opts (length (w_heap w)))) ∧
  w_heap w `prefix_of` w_heap w' ∧
  w_trace w' = w_trace w ∧
  w_done w' = S (w_done w).
Proof.
  rewrite plugin_run.
  destruct (createStorage (engine_options opts)) as [st|e]; [|done].
  intros [= <-].
  rewrite registered_server, registered_request.
  destruct (registered_rest opts st w) as (-> & -> & -> & Hheap).
  split; [|split; [|split; [|split; [|split]]]].
  - by rewrite !dom_insert_L, capability_names_union.
  - by rewrite !dom_insert_L, capability_names_union.
  - intros name Hname.
    unfold capability_names in Hname.
    rewrite !not_elem_of_union, !not_elem_of_singleton in Hname.
    destruct Hname as [[? ?] ?].
    by rewrite !lookup_insert_ne.
  - exists (length (w_heap w) + 6). split; [done|].
    by rewrite registered_lookup.
  - rewrite Hheap. eexists. reflexivity.
  - done.
Qed.

(** *** The [onClose] hook *)

Lemma call_method_trace {A} s (m : Storage → result A * Storage) w :
  w_trace (call_method s m w).2 = w_trace w.
Proof.
  unfold call_method. destruct (w_heap w !! s) as [[]|]; try done.
  destruct (m st). by destruct w.
Qed.

Lemma logged_call_trace {A} (ev : result A → event) s m w r w' :
  logged ev (call_method s m) w = (r, w') →
  w_trace w' = w_trace w ++ [ev r].
Proof.
  unfold logged. pose proof (call_method_trace s m w) as Ht.
  destruct (call_method s m w) as [r1 w1]. intros [= <- <-].
  destruct w1. cbn [add_event w_trace snd] in *. by rewrite <- Ht.
Qed.

Lemma for_of_unmount_trace s bases w :
  (∃ w', for_of bases (λ base, storage_unmount s base true) w = (Ok tt, w') ∧
         w_trace w' = w_trace w ++ unmounted s bases) ∨
  (∃ pre base post e w',
      bases = pre ++ base :: post ∧
      for_of bases (λ base, storage_unmount s base true) w = (Throw e, w') ∧
      w_trace w' = w_trace w ++ unmounted s pre ++ [EUnmount s base true (Throw e)]).
Proof.
  revert w. induction bases as [|b bases IH]; intros w.
  - left. exists w. split; [done|]. by rewrite app_nil_r.
  - cbn [for_of]. unfold bind.
    destruct (storage_unmount s b true w) as [[[]|e] w1] eqn:Hb;
      apply logged_call_trace in Hb.
    + destruct (IH w1) as [(w' & Hrun & Ht) | (pre & base & post & e & w' & -> & Hrun & Ht)].
      * left. exists w'. split; [done|].
        rewrite Ht, Hb, <- app_assoc. reflexivity.
      * right. exists (b :: pre), base, post, e, w'.
        split; [done|]. split; [done|].
        rewrite Ht, Hb, <- app_assoc. reflexivity.
    + right. exists [], b, bases, e, w1. by split.
Qed.

Lemma cleanup_spec s w r w' :
  cleanup s w = (r, w') →
  ∃ evs, w_trace w' = w_trace w ++ evs ∧ cleanup_trace s evs r.
Proof.
  unfold cleanup, mbind, M_bind, bind.
  destruct (storage_unwatch s w) as [[[]|e] w1] eqn:H1;
    apply logged_call_trace in H1.
  2:{ intros [= <- <-]. eexists. split; [exact H1|]. constructor. }
  destruct (storage_getMounts s "" w1) as [[bases|e] w2] eqn:H2;
    apply logged_call_trace in H2.
  2:{ intros [= <- <-].
      exists [EUnwatch s (Ok tt); EGetMounts s "" (Throw e)].
      split; [|constructor]. rewrite H2, H1, <- app_assoc. done. }
  destruct (for_of_unmount_trace s bases w2)
    as [(w3 & -> & H3) | (pre & base & post & e & w3 & -> & -> & H3)].
  - intros H4. apply logged_call_trace in H4.
    exists ([EUnwatch s (Ok tt); EGetMounts s "" (Ok bases)]
              ++ unmounted s bases ++ [EDispose s r]).
    split; [|constructor].
    rewrite H4, H3, H2, H1, <- !app_assoc. done.
  - intros [= <- <-].
    exists ([EUnwatch s (Ok tt); EGetMounts s "" (Ok (pre ++ base :: post))]
              ++ unmounted s pre ++ [EUnmount s base true (Throw e)]).
    split; [|constructor].
    rewrite H3, H2, H1, <- !app_assoc. done.
Qed.

Lemma call_close_trace opts s w :
  w_trace (call_close opts s w).2 =
    w_trace w ++ close_events opts (call_close opts s w).1.
Proof.
  unfold call_close, close_events. destruct (close opts) as [cb|].
  - destruct (logged EClose (call_method s cb) w) as [r w'] eqn:Hc.
    by apply logged_call_trace in Hc.
  - cbn. by rewrite app_nil_r.
Qed.

(** Every run of the hook: the callback first, then the [finally] block from
    the world the callback left, whatever the callback's completion. *)
Lemma onClose_spec opts s w r w' :
  onClose opts s w = (r, w') →
  ∃ r0 w1 rc evs,
    call_close opts s w = (r0, w1) ∧
    cleanup s w1 = (rc, w') ∧
    r = finally_completion r0 rc ∧
    w_trace w' = w_trace w ++ close_events opts r0 ++ evs ∧
    cleanup_trace s evs rc.
Proof.
  unfold onClose, try_finally.
  pose proof (call_close_trace opts s w) as Hc.
  destruct (call_close opts s w) as [r0 w1]. cbn [fst snd] in Hc.
  destruct (cleanup s w1) as [rc w2] eqn:Hrun.
  destruct (cleanup_spec _ _ _ _ Hrun) as (evs & Ht & Hshape).
  intros Hr. exists r0, w1, rc, evs.
  assert (r = finally_completion r0 rc ∧ w' = w2) as [-> ->].
  { by destruct rc as [[]|e]; injection Hr as <- <-. }
  repeat split; try done.
  rewrite Ht, Hc, <- app_assoc. done.
Qed.

Lemma cleanup_trace_completed s evs :
  cleanup_trace s evs (Ok tt) →
  ∃ bases, evs = [EUnwatch s (Ok tt); EGetMounts s "" (Ok bases)]
                   ++ unmounted s bases ++ [EDispose s (Ok tt)].
Proof. inversion 1; subst. by eexists. Qed.

Lemma unmounted_all_ok s bases base e :
  EUnmount s base true (Throw e) ∉ unmounted s bases.
Proof.
  unfold unmounted. intros (b & Hb & _)%list_elem_of_fmap. discriminate.
Qed.

Lemma unmounted_no_dispose s bases r : EDispose s r ∉ unmounted s bases.
Proof.
  unfold unmounted. intros (b & Hb & _)%list_elem_of_fmap. discriminate.
Qed.

Lemma close_events_only_close opts r0 ev :
  ev ∈ close_events opts r0 → ev = EClose r0.
Proof.
  unfold close_events. destruct (close opts); [|by intros ?%elem_of_nil].
  by intros ->%list_elem_of_singleton.
Qed.

(** The host running the registered closure runs the hook body. *)
Lemma run_hook_closure fn opts s w :
  w_heap w !! fn = Some (OCloseHook opts s) →
  run_hook fn w = onClose opts s w.
Proof. intros Hfn. unfold run_hook. by rewrite Hfn. Qed.




(** C8.  When a run of the hook has an [unmount] that threw [e] in its
    trace, that event is the last of the run: the mounts enumerated before
    it were unmounted, the ones after it were not, [dispose] was not called;
    and the hook throws [e], whatever the close callback's completion was. *)
Theorem failed_unmount_stops_cleanup opts s w r w' evs base e :
  onClose opts s w = (r, w') →
  w_trace w' = w_trace w ++ evs →
  EUnmount s base true (Throw e) ∈ evs →
  r = Throw e ∧
  (∀ rd, EDispose s rd ∉ evs) ∧
  ∃ r0 pre post,
    (call_close opts s w).1 = r0 ∧
    evs = close_events opts r0
            ++ [EUnwatch s (Ok tt); EGetMounts s "" (Ok (pre ++ base :: post))]
            ++ unmounted s pre ++ [EUnmount s base true (Throw e)].
Proof.
  intros Hrun Hevs Hin.
  destruct (onClose_spec _ _ _ _ _ Hrun) as (r0 & w1 & rc & evs' & Hc & _ & -> & Ht & Hsh).
  rewrite Hevs in Ht. apply app_inv_head in Ht. subst evs.
  apply elem_of_app in Hin as [Hin%close_events_only_close | Hin]; [done|].
  assert (Hshape : ∃ pre post, rc = Throw e ∧
    evs' = [EUnwatch s (Ok tt); EGetMounts s "" (Ok (pre ++ base :: post))]
             ++ unmounted s pre ++ [EUnmount s base true (Throw e)]).
  { inversion Hsh; subst; cbn [app] in Hin;
      repeat (apply elem_of_cons in Hin as [Hin | Hin]; [done|]).
    - by apply elem_of_nil in Hin.
    - by apply elem_of_nil in Hin.
    - apply elem_of_app in Hin as [Hin | Hin];
        [by apply unmounted_all_ok in Hin|].
      apply list_elem_of_singleton in Hin. injection Hin as -> ->. eauto.
    - apply elem_of_app in Hin as [Hin | Hin];
        [by apply unmounted_all_ok in Hin|].
      by apply list_elem_of_singleton in Hin. }
  destruct Hshape as (pre & post & -> & ->).
  split; [done|]. split.
  - intros rd Hd.
    apply elem_of_app in Hd as [Hd%close_events_only_close | Hd]; [done|].
    cbn [app] in Hd.
    repeat (apply elem_of_cons in Hd as [Hd | Hd]; [done|]).
    apply elem_of_app in Hd as [Hd | Hd]; [by apply unmounted_no_dispose in Hd|].
    by apply list_elem_of_singleton in Hd.
  - exists r0, pre, post. by rewrite Hc.
Qed.

(** *** Calls through the handles *)

Lemma call_method_run {A} s st (m : Storage → result A * Storage) r st' w :
  w_heap w !! s = Some (OStorage st) →
  m st = (r, st') →
  call_method s m w = (r, set_heap (<[s := OStorage st']>) w).
Proof. intros Hs Hm. unfold call_method. by rewrite Hs, Hm. Qed.

Lemma call_storagePrefix_run pf s prefix w :
  w_heap w !! pf = Some (OPrefixFactory s) →
  call_storagePrefix pf prefix w =
    (Ok (length (w_heap w)), set_heap (λ h, h ++ [OPrefixed s prefix]) w).
Proof.
  intros Hpf. unfold call_storagePrefix. rewrite Hpf. by destruct w.
Qed.

Lemma on_handle_base {A} s st key (m : string → Storage → result A * Storage) w :
  w_heap w !! s = Some (OStorage st) →
  on_handle s key m w = call_method s (m key) w.
Proof. intros Hs. unfold on_handle. by rewrite Hs. Qed.

Lemma on_handle_view {A} view s prefix key
    (m : string → Storage → result A * Storage) w :
  w_heap w !! view = Some (OPrefixed s prefix) →
  on_handle view key m w = call_method s (m (prefix +:+ key)) w.
Proof. intros Hv. unfold on_handle. by rewrite Hv. Qed.

(** A view with prefix [prefix] does at [key] what the instance does at
    [prefix +:+ key], whatever the engine. *)
Lemma view_delegates view s st prefix w :
  w_heap w !! view = Some (OPrefixed s prefix) →
  w_heap w !! s = Some (OStorage st) →
  ∀ key v,
    storage_getItem view key w = storage_getItem s (prefix +:+ key) w ∧
    storage_setItem view key v w = storage_setItem s (prefix +:+ key) v w ∧
    storage_removeItem view key w = storage_removeItem s (prefix +:+ key) w.
Proof.
  intros Hv Hs key v.
  unfold storage_getItem, storage_setItem, storage_removeItem.
  by rewrite !(on_handle_view _ _ _ _ _ _ Hv), !(on_handle_base _ _ _ _ _ Hs).
Qed.

(** [storageSnapshot.restore(snap, base)] is the engine's [restoreSnapshot]
    on the instance with [snap] and [base] as the caller gave them. *)
Lemma call_restore_forwards w s pf fn r snap base :
  registration w s pf fn r →
  call_restore fn snap base w = call_method s (restoreSnapshot snap base) w.
Proof.
  intros (_ & _ & _ & _ & Hfn & Hr). unfold call_restore. by rewrite Hfn, Hr.
Qed.

Lemma call_storageSnapshot_forwards w s pf fn r base :
  registration w s pf fn r →
  call_storageSnapshot fn base w = call_method s (snapshot base) w.
Proof.
  intros (_ & _ & _ & _ & Hfn & _). unfold call_storageSnapshot. by rewrite Hfn.
Qed.

Lemma set_heap_id s o w :
  w_heap w !! s = Some o → set_heap (<[s := o]>) w = w.
Proof.
  intros Hs. destruct w. unfold set_heap. cbn in *. by rewrite list_insert_id.
Qed.

Lemma call_method_pure {A} s st (m : Storage → result A * Storage) r w :
  w_heap w !! s = Some (OStorage st) →
  m st = (r, st) →
  call_method s m w = (r, w).
Proof.
  intros Hs Hm. rewrite (call_method_run _ _ _ _ _ _ Hs Hm).
  by rewrite set_heap_id.
Qed.

Lemma set_storage_lookup s st st' w :
  w_heap w !! s = Some (OStorage st) →
  w_heap (set_heap (<[s := OStorage st']>) w) !! s = Some (OStorage st').
Proof.
  destruct w as [h sv rq hk n tr]. intros Hs. cbn [set_heap w_heap] in *.
  apply list_lookup_insert_eq. by eapply lookup_lt_Some.
Qed.

Lemma later_world_set_storage s st st' w :
  w_heap w !! s = Some (OStorage st) →
  later_world w (set_heap (<[s := OStorage st']>) w).
Proof.
  destruct w as [h sv rq hk n tr].
  intros Hs. repeat split. intros i o Hi. cbn [set_heap w_heap] in *.
  destruct (decide (i = s)) as [->|Hne].
  - rewrite Hs in Hi. injection Hi as <-.
    exists st'. apply list_lookup_insert_eq. by eapply lookup_lt_Some.
  - rewrite list_lookup_insert_ne by done. destruct o; eauto.
Qed.

Lemma alloc_lookup_new o w :
  w_heap (set_heap (λ h, h ++ [o]) w) !! length (w_heap w) = Some o.
Proof.
  destruct w as [h sv rq hk n tr]. cbn [set_heap w_heap].
  by apply list_lookup_middle.
Qed.

Lemma alloc_lookup_old o o' i w :
  w_heap w !! i = Some o' →
  w_heap (set_heap (λ h, h ++ [o]) w) !! i = Some o'.
Proof.
  destruct w as [h sv rq hk n tr]. cbn [set_heap w_heap].
  intros Hi. by apply lookup_app_l_Some.
Qed.

End ShimProperties.

(** *** With the in-memory engine *)

Section MemoryProperties.
Import Memory.
#[local] Existing Instance memory_engine.






Lemma memory_setItem_run s st key v w :
  w_heap w !! s = Some (OStorage st) →
  storage_setItem s key v w =
    (Ok tt, set_heap (<[s := OStorage (set_items (<[key := v]>) st)]>) w).
Proof.
  intros Hs. unfold storage_setItem. rewrite (on_handle_base _ _ _ _ _ Hs).
  by apply call_method_run with (st := st).
Qed.

Lemma memory_getItem_run s st key w :
  w_heap w !! s = Some (OStorage st) →
  storage_getItem s key w = (Ok (items st !! key), w).
Proof.
  intros Hs. unfold storage_getItem. rewrite (on_handle_base _ _ _ _ _ Hs).
  by apply call_method_pure with (st := st).
Qed.

Lemma write_through_view_read_base w s pf st P K V :
  w_heap w !! pf = Some (OPrefixFactory s) →
  w_heap w !! s = Some (OStorage st) →
  ∃ w',
    write_prefixed_read_base s pf P K V (P +:+ K) w = (Ok (Some V), w') ∧
    w_heap w' !! s = Some (OStorage (set_items (<[P +:+ K := V]>) st)).
Proof.
  intros Hpf Hs.
  unfold write_prefixed_read_base, mbind, M_bind, bind.
  rewrite (call_storagePrefix_run _ _ _ _ Hpf).
  set (w1 := set_heap (λ h, h ++ [OPrefixed s P]) w).
  assert (Hv : w_heap w1 !! length (w_heap w) = Some (OPrefixed s P))
    by apply alloc_lookup_new.
  assert (Hs1 : w_heap w1 !! s = Some (OStorage st)) by by apply alloc_lookup_old.
  destruct (view_delegates _ _ _ _ _ Hv Hs1 K V) as (_ & -> & _).
  rewrite (memory_setItem_run _ _ _ _ _ Hs1).
  pose proof (set_storage_lookup _ _ (set_items (<[P +:+ K := V]>) st) _ Hs1) as Hs2.
  rewrite (memory_getItem_run _ _ _ _ Hs2).
  eexists. split; [|exact Hs2].
  cbn [items set_items]. by rewrite lookup_insert_eq.
Qed.

(** C3.  With the in-memory engine: a value written at [K] through
    [storagePrefix(P)] is read back through the base handle at [P +:+ K], and
    the write changed the store at that key only. *)
Theorem prefixed_write_readable_at_concatenation w s pf fn r st P K V :
  registration w s pf fn r →
  w_heap w !! s = Some (OStorage st) →
  ∃ w',
    write_prefixed_read_base s pf P K V (P +:+ K) w = (Ok (Some V), w') ∧
    w_heap w' !! s = Some (OStorage (set_items (<[P +:+ K := V]>) st)).
Proof.
  intros (_ & _ & _ & Hpf & _ & _) Hs.
  by apply write_through_view_read_base.
Qed.


(** C9.  [storageSnapshot.restore(snap)] hands the engine [snap] and the
    missing base as they are; with the in-memory engine that is the restore
    into the root base, the one [storageSnapshot.restore(snap, "")] does:
    every captured pair is written back at its own key. *)
Theorem restore_without_base_is_root w s pf fn r st snap :
  registration w s pf fn r →
  w_heap w !! s = Some (OStorage st) →
  call_restore fn snap None w = call_method s (restoreSnapshot snap None) w ∧
  call_restore fn snap None w = call_restore fn snap (Some "") w ∧
  call_restore fn snap None w =
    (Ok tt, set_heap (<[s := OStorage (set_items (write_back "" snap) st)]>) w).
Proof.
  intros Hreg Hs. rewrite !(call_restore_forwards _ _ _ _ _ _ _ Hreg).
  split; [done|]. split; [done|].
  by apply call_method_run with (st := st).
Qed.

(** C10.  With the in-memory engine: a view made by [storagePrefix("")] does
    at every key what the base handle does there, in every later world; so a
    write through it is read back through the base handle at the same key,
    and a write through the base handle is read back through it. *)
Theorem empty_prefix_is_base w s pf fn r st K V :
  registration w s pf fn r →
  w_heap w !! s = Some (OStorage st) →
  (∃ view w1,
     call_storagePrefix pf "" w = (Ok view, w1) ∧
     ∀ w2 key v,
       later_world w1 w2 →
       storage_getItem view key w2 = storage_getItem s key w2 ∧
       storage_setItem view key v w2 = storage_setItem s key v w2 ∧
       storage_removeItem view key w2 = storage_removeItem s key w2) ∧
  (∃ w', write_prefixed_read_base s pf "" K V K w = (Ok (Some V), w')) ∧
  (∃ w', write_base_read_prefixed s pf "" K V K w = (Ok (Some V), w')).
Proof.
  intros Hreg Hs. pose proof Hreg as (_ & _ & _ & Hpf & _ & _).
  split; [|split].
  - eexists _, _. split; [by apply call_storagePrefix_run|].
    intros w2 key v (_ & _ & Hh).
    pose proof (Hh _ _ (alloc_lookup_new (OPrefixed s "") w)) as Hv.
    destruct (Hh _ _ (alloc_lookup_old (OPrefixed s "") _ _ _ Hs)) as [st2 Hs2].
    apply (view_delegates _ _ _ _ _ Hv Hs2 key v).
  - destruct (write_through_view_read_base w s pf st "" K V Hpf Hs)
      as (w' & Hrun & _).
    by exists w'.
  - unfold write_base_read_prefixed, mbind, M_bind, bind.
    rewrite (memory_setItem_run _ _ _ _ _ Hs).
    pose (st1 := (set_items (<[K := V]>) st : Storage)).
    change (set_items (<[K := V]>) st) with st1.
    set (w1 := set_heap (<[s := OStorage st1]>) w).
    assert (Hs1 : w_heap w1 !! s = Some (OStorage st1)) by by eapply set_storage_lookup.
    assert (Hpf1 : w_heap w1 !! pf = Some (OPrefixFactory s)).
    { destruct (later_world_set_storage s st st1 w Hs) as (_ & _ & Hh). apply (Hh _ _ Hpf). }
    rewrite (call_storagePrefix_run _ _ _ _ Hpf1).
    set (w2 := set_heap (λ h, h ++ [OPrefixed s ""]) w1).
    assert (Hv : w_heap w2 !! length (w_heap w1) = Some (OPrefixed s ""))
      by apply alloc_lookup_new.
    assert (Hs2 : w_heap w2 !! s = Some (OStorage st1)) by by apply alloc_lookup_old.
    destruct (view_delegates _ _ _ _ _ Hv Hs2 K V) as (-> & _ & _).
    rewrite (memory_getItem_run _ _ _ _ Hs2).
    eexists. f_equal. f_equal. cbn [items set_items]. apply lookup_insert_eq.
Qed.

End MemoryProperties.

(** *** The scenarios *)

Section MemoryScenarios.
Import Memory.
#[local] Existing Instance memory_engine.

Example snapshot_test_passes : (snapshot_test empty_world).1 = Ok (Some "original").
Proof. reflexivity. Qed.

Example prefix_test_passes : (prefix_test empty_world).1 = Ok (Some "Alice").
Proof. reflexivity. Qed.

Example decoration_test_passes :
  (decoration_test empty_world).1
    = Ok [Some 0; Some 0; Some 3; Some 3; Some 4; Some 4].
Proof. reflexivity. Qed.

Example memory_shutdown_trace :
  w_trace (onClose memory_options 0 memory_world).2
    = [EUnwatch 0 (Ok tt); EGetMounts 0 "" (Ok [""]);
       EUnmount 0 "" true (Ok tt); EDispose 0 (Ok tt)].
Proof. reflexivity. Qed.

Lemma registration_shares_capabilities_witness :
  plugin memory_options empty_world =
    (Ok tt, registered memory_options (State ∅ [""] false false) empty_world) ∧
  ∃ st s pf fn r,
    createStorage (engine_options memory_options) = Ok st ∧
    w_heap empty_world !! s = None ∧
    w_heap (registered memory_options (State ∅ [""] false false) empty_world) !! s
      = Some (OStorage st) ∧
    registration (registered memory_options (State ∅ [""] false false) empty_world)
      s pf fn r ∧
    ∀ w'' req,
      later_world (registered memory_options (State ∅ [""] false false) empty_world) w'' →
      w_heap w'' !! req = Some ORequest →
      registration w'' s pf fn r ∧
      request_sees w'' req s pf fn ∧
      ∃ st', w_heap w'' !! s = Some (OStorage st').
Proof.
  split; [reflexivity|].
  apply (registration_shares_capabilities memory_options empty_world).
  reflexivity.
Defined.

Lemma configuration_error_aborts_registration_witness :
  createStorage (engine_options unknown_driver_options) = Throw (Raised "redis") ∧
  plugin unknown_driver_options empty_world = (Throw (Raised "redis"), empty_world).
Proof.
  split; [reflexivity|].
  apply (proj1 (configuration_error_aborts_registration unknown_driver_options empty_world)).
  reflexivity.
Defined.

Lemma registration_frame_witness :
  plugin memory_options empty_world =
    (Ok tt, registered memory_options (State ∅ [""] false false) empty_world) ∧
  dom (w_server (registered memory_options (State ∅ [""] false false) empty_world))
    = capability_names ∪ dom (w_server empty_world) ∧
  dom (w_request (registered memory_options (State ∅ [""] false false) empty_world))
    = capability_names ∪ dom (w_request empty_world) ∧
  (∀ name, name ∉ capability_names →
     w_server (registered memory_options (State ∅ [""] false false) empty_world) !! name
       = w_server empty_world !! name ∧
     w_request (registered memory_options (State ∅ [""] false false) empty_world) !! name
       = w_request empty_world !! name) ∧
  (∃ hook,
     w_hooks (registered memory_options (State ∅ [""] false false) empty_world)
       = w_hooks empty_world ++ [("onClose", hook)] ∧
     w_heap (registered memory_options (State ∅ [""] false false) empty_world) !! hook
       = Some (OCloseHook memory_options (length (w_heap empty_world)))) ∧
  w_heap empty_world `prefix_of`
    w_heap (registered memory_options (State ∅ [""] false false) empty_world) ∧
  w_trace (registered memory_options (State ∅ [""] false false) empty_world)
    = w_trace empty_world ∧
  w_done (registered memory_options (State ∅ [""] false false) empty_world)
    = S (w_done empty_world).
Proof.
  split; [reflexivity|].
  apply (registration_frame memory_options empty_world).
  reflexivity.
Defined.


Lemma prefixed_write_readable_at_concatenation_witness :
  registration memory_world 0 3 4 5 ∧
  w_heap memory_world !! 0 = Some (OStorage memory_store) ∧
  ∃ w', write_prefixed_read_base 0 3 "users:" "u1" "Alice" ("users:" +:+ "u1") memory_world
          = (Ok (Some "Alice"), w') ∧
        w_heap w' !! 0
          = Some (OStorage (set_items (<["users:" +:+ "u1" := "Alice"]>) memory_store)).
Proof.
  assert (Hreg : registration memory_world 0 3 4 5) by (repeat split; reflexivity).
  split; [exact Hreg|]. split; [reflexivity|].
  apply (prefixed_write_readable_at_concatenation memory_world 0 3 4 5 memory_store
           "users:" "u1" "Alice" Hreg); reflexivity.
Defined.

Lemma restore_without_base_is_root_witness :
  registration memory_world 0 3 4 5 ∧
  w_heap memory_world !! 0 = Some (OStorage memory_store) ∧
  call_restore 4 [("foo", "original")] None memory_world
    = call_restore 4 [("foo", "original")] (Some "") memory_world.
Proof.
  assert (Hreg : registration memory_world 0 3 4 5) by (repeat split; reflexivity).
  split; [exact Hreg|]. split; [reflexivity|].
  apply (restore_without_base_is_root memory_world 0 3 4 5 memory_store
           [("foo", "original")] Hreg); reflexivity.
Defined.

Lemma empty_prefix_is_base_witness :
  registration memory_world 0 3 4 5 ∧
  w_heap memory_world !! 0 = Some (OStorage memory_store) ∧
  (∃ w', write_prefixed_read_base 0 3 "" "foo" "changed" "foo" memory_world
           = (Ok (Some "changed"), w')) ∧
  (∃ w', write_base_read_prefixed 0 3 "" "foo" "changed" "foo" memory_world
           = (Ok (Some "changed"), w')).
Proof.
  assert (Hreg : registration memory_world 0 3 4 5) by (repeat split; reflexivity).
  split; [exact Hreg|]. split; [reflexivity|].
  apply (empty_prefix_is_base memory_world 0 3 4 5 memory_store
           "foo" "changed" Hreg); reflexivity.
Defined.

End MemoryScenarios.

Section ScriptedScenarios.
Import Scripted.
#[local] Existing Instance scripted_engine.

Example busy_shutdown :
  (onClose (scripted_options busy_script) 0 (scripted_world busy_script)).1
    = Throw (Raised "busy") ∧
  w_trace (onClose (scripted_options busy_script) 0 (scripted_world busy_script)).2
    = [EClose (Throw (Raised "close failed"));
       EUnwatch 0 (Ok tt);
       EGetMounts 0 "" (Ok [""; "cache"; "tmp"]);
       EUnmount 0 "" true (Ok tt);
       EUnmount 0 "cache" true (Throw (Raised "busy"))].
Proof. split; reflexivity. Qed.

Example quiet_shutdown :
  (onClose (scripted_options quiet_script) 0 (scripted_world quiet_script)).1
    = Throw (Raised "close failed") ∧
  w_trace (onClose (scripted_options quiet_script) 0 (scripted_world quiet_script)).2
    = [EClose (Throw (Raised "close failed"));
       EUnwatch 0 (Ok tt);
       EGetMounts 0 "" (Ok [""; "cache"]);
       EUnmount 0 "" true (Ok tt);
       EUnmount 0 "cache" true (Ok tt);
       EDispose 0 (Ok tt)].
Proof. split; reflexivity. Qed.



Lemma failed_unmount_stops_cleanup_witness :
  ∃ w',
    onClose (scripted_options busy_script) 0 (scripted_world busy_script)
      = (Throw (Raised "busy"), w') ∧
    w_trace w'
      = w_trace (scripted_world busy_script)
          ++ [EClose (Throw (Raised "close failed"));
              EUnwatch 0 (Ok tt);
              EGetMounts 0 "" (Ok [""; "cache"; "tmp"]);
              EUnmount 0 "" true (Ok tt);
              EUnmount 0 "cache" true (Throw (Raised "busy"))] ∧
    ∀ rd, EDispose 0 rd ∉
            [EClose (Throw (Raised "close failed"));
             EUnwatch 0 (Ok tt);
             EGetMounts 0 "" (Ok [""; "cache"; "tmp"]);
             EUnmount 0 "" true (Ok tt);
             EUnmount 0 "cache" true (Throw (Raised "busy"))].
Proof.
  eexists. split; [reflexivity|]. split; [reflexivity|].
  eapply (failed_unmount_stops_cleanup
            (scripted_options busy_script) 0 (scripted_world busy_script)
            (Throw (Raised "busy")) _ _ "cache" (Raised "busy")).
  - reflexivity.
  - reflexivity.
  - do 4 apply list_elem_of_further. apply list_elem_of_here.
Defined.

End ScriptedScenarios.

(** ** The hook, further *)

Section HookProperties.
Context {E : Engine}.

Lemma cleanup_trace_error s evs rc ev e :
  cleanup_trace s evs rc →
  ev ∈ evs →
  event_error ev = Some e →
  rc = Throw e ∧ last evs = Some ev.
Proof.
  intros Hsh Hin Herr. inversion Hsh; subst; cbn [app] in Hin.
  - apply list_elem_of_singleton in Hin as ->. by injection Herr as ->.
  - apply elem_of_cons in Hin as [-> | Hin]; [done|].
    apply list_elem_of_singleton in Hin as ->. by injection Herr as ->.
  - do 2 (apply elem_of_cons in Hin as [-> | Hin]; [done|]).
    apply elem_of_app in Hin as [Hin | Hin].
    + unfold unmounted in Hin. apply list_elem_of_fmap in Hin as (b & -> & _). done.
    + apply list_elem_of_singleton in Hin as ->. injection Herr as ->.
      split; [done|]. by rewrite (app_assoc _ _ [_]), last_snoc.
  - do 2 (apply elem_of_cons in Hin as [-> | Hin]; [done|]).
    apply elem_of_app in Hin as [Hin | Hin].
    + unfold unmounted in Hin. apply list_elem_of_fmap in Hin as (b & -> & _). done.
    + apply list_elem_of_singleton in Hin as ->.
      destruct rc as [|e']; [done|]. injection Herr as ->.
      split; [done|]. by rewrite (app_assoc _ _ [_]), last_snoc.
Qed.

(** X1.  A cleanup step that throws is the last call of the run, and what
    it throws is what the hook throws, whatever the close callback did. *)
Theorem failed_cleanup_step_is_last opts s w r w' evs ev e :
  onClose opts s w = (r, w') →
  w_trace w' = w_trace w ++ evs →
  ev ∈ evs →
  is_close ev = false →
  event_error ev = Some e →
  r = Throw e ∧ last evs = Some ev.
Proof.
  intros Hrun Hevs Hin Hnc Herr.
  destruct (onClose_spec _ _ _ _ _ Hrun) as (r0 & w1 & rc & evs' & _ & _ & -> & Ht & Hsh).
  rewrite Hevs in Ht. apply app_inv_head in Ht. subst evs.
  apply elem_of_app in Hin as [->%close_events_only_close | Hin]; [done|].
  destruct (cleanup_trace_error _ _ _ _ _ Hsh Hin Herr) as [-> Hlast].
  split; [done|]. rewrite last_app, Hlast. done.
Qed.

(** X2.  [dispose] is called only after [unwatch], the enumeration and the
    [unmount] of every enumerated mount have completed normally.  The hook
    then throws what [dispose] threw, if it threw; otherwise it completes as
    the close callback did. *)
Theorem dispose_follows_all_unmounts opts s w r w' evs rd :
  onClose opts s w = (r, w') →
  w_trace w' = w_trace w ++ evs →
  EDispose s rd ∈ evs →
  r = finally_completion (call_close opts s w).1 rd ∧
  ∃ bases,
    evs = close_events opts (call_close opts s w).1
            ++ [EUnwatch s (Ok tt); EGetMounts s "" (Ok bases)]
            ++ unmounted s bases ++ [EDispose s rd].
Proof.
  intros Hrun Hevs Hin.
  destruct (onClose_spec _ _ _ _ _ Hrun) as (r0 & w1 & rc & evs' & Hc & _ & -> & Ht & Hsh).
  rewrite Hevs in Ht. apply app_inv_head in Ht. subst evs. rewrite Hc. cbn [fst].
  apply elem_of_app in Hin as [Hin%close_events_only_close | Hin]; [done|].
  inversion Hsh; subst; cbn [app] in Hin;
    repeat (apply elem_of_cons in Hin as [Hin | Hin]; [done|]).
  - by apply elem_of_nil in Hin.
  - by apply elem_of_nil in Hin.
  - apply elem_of_app in Hin as [Hin | Hin]; [by apply unmounted_no_dispose in Hin|].
    by apply list_elem_of_singleton in Hin.
  - apply elem_of_app in Hin as [Hin | Hin]; [by apply unmounted_no_dispose in Hin|].
    apply list_elem_of_singleton in Hin. injection Hin as ->.
    split; [done|]. by exists bases.
Qed.

Lemma call_close_absent opts s w :
  close opts = None → call_close opts s w = (Ok tt, w).
Proof. intros Hc. unfold call_close. by rewrite Hc. Qed.

Lemma unmounted_no_error s bases :
  Forall (λ ev, event_error ev = None) (unmounted s bases).
Proof. unfold unmounted. apply Forall_fmap, Forall_forall. done. Qed.

(** X3.  The hook completes normally exactly when no call of the run threw:
    neither the close callback nor any cleanup step. *)
Theorem hook_completes_iff_no_call_threw opts s w r w' evs :
  onClose opts s w = (r, w') →
  w_trace w' = w_trace w ++ evs →
  r = Ok tt ↔ Forall (λ ev, event_error ev = None) evs.
Proof.
  intros Hrun Hevs.
  destruct (onClose_spec _ _ _ _ _ Hrun) as (r0 & w1 & rc & evs' & Hc & _ & -> & Ht & Hsh).
  rewrite Hevs in Ht. apply app_inv_head in Ht. subst evs.
  split.
  - intros Hr. destruct rc as [[]|e]; [|done]. cbn in Hr. subst r0.
    apply Forall_app. split.
    + unfold close_events. destruct (close opts); by repeat constructor.
    + apply cleanup_trace_completed in Hsh as [bases ->].
      repeat first [apply Forall_cons; split; [done|] | apply Forall_app; split
                   | apply unmounted_no_error | apply Forall_nil_2 ].
  - intros [Hclose Hclean]%Forall_app.
    assert (rc = Ok tt) as ->.
    { destruct rc as [[]|e]; [done|]. exfalso.
      assert (∃ ev, ev ∈ evs' ∧ event_error ev = Some e) as (ev & Hin & Herr).
      { inversion Hsh; subst.
        - eexists. split; [apply list_elem_of_here|done].
        - eexists. split; [apply list_elem_of_further, list_elem_of_here|done].
        - exists (EUnmount s base true (Throw e)). split; [|done].
          do 2 apply list_elem_of_further. apply elem_of_app. right.
          apply list_elem_of_here.
        - exists (EDispose s (Throw e)). split; [|done].
          do 2 apply list_elem_of_further. apply elem_of_app. right.
          apply list_elem_of_here. }
      rewrite Forall_forall in Hclean. specialize (Hclean _ Hin). congruence. }
    cbn. unfold close_events in Hclose. destruct (close opts) as [cb|] eqn:Hcb.
    + rewrite Forall_singleton in Hclose. by destruct r0 as [[]|].
    + rewrite (call_close_absent _ _ _ Hcb) in Hc. by injection Hc as <- _.
Qed.

(** X4.  The hook unmounts nothing but what the enumeration of its own
    storage instance at the root base gave it, and always with the force
    flag. *)
Theorem unmounts_only_enumerated_mounts opts s w r w' evs s' base force ru :
  onClose opts s w = (r, w') →
  w_trace w' = w_trace w ++ evs →
  EUnmount s' base force ru ∈ evs →
  s' = s ∧ force = true ∧
  ∃ bases, EGetMounts s "" (Ok bases) ∈ evs ∧ base ∈ bases.
Proof.
  intros Hrun Hevs Hin.
  destruct (onClose_spec _ _ _ _ _ Hrun) as (r0 & w1 & rc & evs' & _ & _ & -> & Ht & Hsh).
  rewrite Hevs in Ht. apply app_inv_head in Ht. subst evs.
  apply elem_of_app in Hin as [Hin%close_events_only_close | Hin]; [done|].
  assert (s' = s ∧ force = true ∧ ∃ bases, EGetMounts s "" (Ok bases) ∈ evs' ∧ base ∈ bases)
    as (-> & -> & bases & Hb & Hbase).
  { inversion Hsh; subst; cbn [app] in Hin;
      repeat (apply elem_of_cons in Hin as [Hin | Hin]; [done|]).
    - by apply elem_of_nil in Hin.
    - by apply elem_of_nil in Hin.
    - split_and!; [..|exists (pre ++ base0 :: post); split;
                       [apply list_elem_of_further, list_elem_of_here|]];
        apply elem_of_app in Hin as [Hin | Hin];
        try (unfold unmounted in Hin; apply list_elem_of_fmap in Hin as (b & [= -> -> -> _] & Hb));
        try (apply list_elem_of_singleton in Hin; injection Hin as -> -> -> _);
        try done.
      + apply elem_of_app. by left.
      + apply elem_of_app. right. apply list_elem_of_here.
    - split_and!; [..|exists bases; split;
                       [apply list_elem_of_further, list_elem_of_here|]];
        apply elem_of_app in Hin as [Hin | Hin];
        try (unfold unmounted in Hin; apply list_elem_of_fmap in Hin as (b & [= -> -> -> _] & Hb));
        try (by apply list_elem_of_singleton in Hin);
        done. }
  split; [done|]. split; [done|]. exists bases. split; [|done].
  apply elem_of_app. by right.
Qed.

End HookProperties.

Section HookFrameProperties.
Context {E : Engine}.

Lemma hook_frame_refl s w : hook_frame s w w.
Proof. by repeat split. Qed.

Lemma hook_frame_trans s w1 w2 w3 :
  hook_frame s w1 w2 → hook_frame s w2 w3 → hook_frame s w1 w3.
Proof.
  intros (A1 & A2 & A3 & A4 & A5 & A6) (B1 & B2 & B3 & B4 & B5 & B6).
  repeat split; try congruence.
  intros i Hi. by rewrite B6, A6.
Qed.

Lemma keeps_ret {A} s (a : A) : keeps s (mret a).
Proof. intros w. split; [apply hook_frame_refl|apply later_world_refl]. Qed.

Lemma keeps_bind {A B} s (m : M A) (k : A → M B) :
  keeps s m → (∀ a, keeps s (k a)) → keeps s (m ≫= k).
Proof.
  intros Hm Hk w. unfold mbind, M_bind, bind.
  destruct (Hm w) as [Hf Hl]. destruct (m w) as [[a|e] w1]; [|done].
  destruct (Hk a w1) as [Hf' Hl']. cbn [snd] in *.
  split; [by eapply hook_frame_trans|by eapply later_world_trans].
Qed.

Lemma keeps_call_method {A} s (m : Storage → result A * Storage) :
  keeps s (call_method s m).
Proof.
  intros w. split; [|apply later_world_call_method].
  unfold call_method. destruct (w_heap w !! s) as [[]|]; try apply hook_frame_refl.
  destruct (m st) as [r st']. destruct w as [h sv rq hk n tr].
  cbn [snd set_heap]. repeat split; cbn [w_heap].
  - apply length_insert.
  - intros i Hi. by rewrite list_lookup_insert_ne.
Qed.

Lemma keeps_logged {A} s (ev : result A → event) (m : M A) :
  keeps s m → keeps s (logged ev m).
Proof.
  intros Hm w. unfold logged. destruct (Hm w) as [Hf Hl].
  destruct (m w) as [r [h sv rq hk n tr]]. by cbn [snd add_event] in *.
Qed.

Lemma keeps_for_of {A} s (xs : list A) (body : A → M unit) :
  (∀ x, keeps s (body x)) → keeps s (for_of xs body).
Proof.
  intros Hb. induction xs as [|x xs IH]; [apply (keeps_ret s tt)|].
  cbn [for_of]. by apply (keeps_bind s (body x) (λ _, for_of xs body)).
Qed.

(** X5.  The world a run of the hook ends in is the one its [finally] block
    leaves, and the block, from whatever world the close callback left,
    changes no decoration and no hook, does not call [done], allocates
    nothing and changes no object other than the storage instance, which
    stays a storage instance. *)
Theorem cleanup_touches_only_its_storage opts s w :
  (onClose opts s w).2 = (cleanup s (call_close opts s w).2).2 ∧
  ∀ w1, hook_frame s w1 (cleanup s w1).2 ∧ later_world w1 (cleanup s w1).2.
Proof.
  split.
  - unfold onClose, try_finally.
    destruct (call_close opts s w) as [r0 w1]. cbn [snd].
    by destruct (cleanup s w1) as [[[]|e] w2].
  - change (keeps s (cleanup s)). unfold cleanup.
    apply keeps_bind; [apply keeps_logged, keeps_call_method|]. intros _.
    apply keeps_bind; [apply keeps_logged, keeps_call_method|]. intros mounts.
    apply keeps_bind; [|intros _; apply keeps_logged, keeps_call_method].
    apply keeps_for_of. intros base. apply keeps_logged, keeps_call_method.
Qed.

Lemma cleanup_trace_no_close s evs rc :
  cleanup_trace s evs rc → Forall (λ ev, is_close ev = false) evs.
Proof.
  assert (Hu : ∀ bases, Forall (λ ev, is_close ev = false) (unmounted s bases)).
  { intros bases. unfold unmounted. apply Forall_fmap, Forall_forall. done. }
  inversion 1; subst;
    repeat first [apply Forall_cons; split; [done|] | apply Forall_app; split
                 | apply Hu | apply Forall_nil_2 ].
Qed.

(** X6.  With a close callback, the callback is the first call of the run
    and it is called once: every call after it is a call on the storage
    instance. *)
Theorem close_callback_called_once_first opts s w cb st r w' evs :
  close opts = Some cb →
  w_heap w !! s = Some (OStorage st) →
  onClose opts s w = (r, w') →
  w_trace w' = w_trace w ++ evs →
  ∃ evs', evs = EClose (cb st).1 :: evs' ∧
          Forall (λ ev, is_close ev = false) evs'.
Proof.
  intros Hcb Hs Hrun Hevs.
  destruct (onClose_spec _ _ _ _ _ Hrun) as (r0 & w1 & rc & evs' & Hc & _ & -> & Ht & Hsh).
  rewrite Hevs in Ht. apply app_inv_head in Ht. subst evs.
  unfold call_close, logged, call_method in Hc. rewrite Hcb, Hs in Hc.
  destruct (cb st) as [r1 st1]. injection Hc as <- _.
  exists evs'. unfold close_events. rewrite Hcb. split; [done|].
  by eapply cleanup_trace_no_close.
Qed.

Lemma stepped_init w s st :
  w_heap w !! s = Some (OStorage st) → stepped w s st [] = w.
Proof.
  destruct w as [h sv rq hk n tr]. cbn [w_heap stepped]. intros Hs.
  by rewrite list_insert_id, app_nil_r.
Qed.

Lemma stepped_call {A} (ev : result A → event) s st
    (m : Storage → result A * Storage) r st' w evs :
  s < length (w_heap w) →
  m st = (r, st') →
  logged ev (call_method s m) (stepped w s st evs)
    = (r, stepped w s st' (evs ++ [ev r])).
Proof.
  destruct w as [h sv rq hk n tr]. cbn [w_heap stepped]. intros Hlt Hm.
  unfold logged, call_method. cbn [w_heap].
  rewrite list_lookup_insert_eq by done. rewrite Hm.
  cbn [set_heap add_event]. by rewrite list_insert_insert_eq, <- app_assoc.
Qed.

Lemma stepped_unmount_each s w bases st st' evs :
  s < length (w_heap w) →
  unmount_each bases st = (Ok tt, st') →
  for_of bases (λ base, storage_unmount s base true) (stepped w s st evs)
    = (Ok tt, stepped w s st' (evs ++ unmounted s bases)).
Proof.
  intros Hlt. revert st evs. induction bases as [|b bases IH]; intros st evs.
  - cbn. intros [= ->]. by rewrite app_nil_r.
  - cbn [unmount_each for_of]. destruct (unmount b true st) as [[[]|e] st1] eqn:Hb; [|done].
    intros Hrest. unfold bind, storage_unmount.
    rewrite (stepped_call _ _ _ _ _ _ _ _ Hlt Hb).
    rewrite (IH _ _ Hrest), <- app_assoc. reflexivity.
Qed.


Lemma unmount_each_cases bases st :
  (∃ st', unmount_each bases st = (Ok tt, st')) ∨
  (∃ pre base post st1 e st2,
      bases = pre ++ base :: post ∧
      unmount_each pre st = (Ok tt, st1) ∧
      unmount base true st1 = (Throw e, st2)).
Proof.
  revert st. induction bases as [|b bases IH]; intros st.
  - left. by exists st.
  - cbn [unmount_each]. destruct (unmount b true st) as [[[]|e] st1] eqn:Hb.
    + destruct (IH st1) as [[st' Hok] | (pre & base & post & st2 & e & st3 & -> & Hpre & Hbase)].
      * left. by exists st'.
      * right. exists (b :: pre), base, post, st2, e, st3.
        split; [done|]. cbn [unmount_each]. by rewrite Hb.
    + right. by exists [], b, bases, st, e, st1.
Qed.

Lemma stepped_unmount_fails s w pre base post st st1 e st2 evs :
  s < length (w_heap w) →
  unmount_each pre st = (Ok tt, st1) →
  unmount base true st1 = (Throw e, st2) →
  for_of (pre ++ base :: post) (λ base, storage_unmount s base true) (stepped w s st evs)
    = (Throw e, stepped w s st2 (evs ++ unmounted s pre ++ [EUnmount s base true (Throw e)])).
Proof.
  intros Hlt. revert st evs. induction pre as [|b pre IH]; intros st evs.
  - cbn. intros [= ->] Hbase. unfold bind, storage_unmount.
    by rewrite (stepped_call _ _ _ _ _ _ _ _ Hlt Hbase).
  - cbn [unmount_each app for_of].
    destruct (unmount b true st) as [[[]|e'] st'] eqn:Hb; [|done].
    intros Hpre Hbase. unfold bind, storage_unmount.
    rewrite (stepped_call _ _ _ _ _ _ _ _ Hlt Hb).
    rewrite (IH _ _ Hpre Hbase), <- app_assoc. reflexivity.
Qed.

(** C5.  As amended: on a storage instance in state [st], every run of the
    hook first calls the close callback, if there is one, on [st]; from the
    state the callback left, and whatever it completed with, it calls the
    engine's [unwatch], then [getMounts] at the root base, then [unmount]
    with the force flag for each enumerated mount in the order of the
    enumeration, then [dispose], each on the state the call before it left.
    The first of these that throws ends the run.  The hook leaves the
    instance in the state the last call left and the calls in the trace, in
    that order. *)
Theorem shutdown_order opts s w st :
  w_heap w !! s = Some (OStorage st) →
  ∃ r0 st1 rc st' evs,
    run_close opts st = (r0, st1) ∧
    cleanup_run s st1 evs rc st' ∧
    onClose opts s w
      = (finally_completion r0 rc, stepped w s st' (close_events opts r0 ++ evs)).
Proof.
  intros Hs.
  assert (Hlt : s < length (w_heap w)) by by eapply lookup_lt_Some.
  destruct (run_close opts st) as [r0 st1] eqn:Hc.
  assert (Hclose : call_close opts s (stepped w s st [])
                   = (r0, stepped w s st1 (close_events opts r0))).
  { unfold call_close, close_events, run_close in *.
    destruct (close opts) as [cb|].
    - by rewrite (stepped_call _ _ _ _ _ _ _ _ Hlt Hc).
    - by injection Hc as <- <-. }
  exists r0, st1.
  cut (∃ rc st' evs,
         cleanup_run s st1 evs rc st' ∧
         onClose opts s (stepped w s st [])
           = (finally_completion r0 rc, stepped w s st' (close_events opts r0 ++ evs))).
  { intros (rc & st' & evs & Hrun & Heq). rewrite (stepped_init w s st Hs) in Heq.
    by exists rc, st', evs. }
  unfold onClose, try_finally. rewrite Hclose.
  unfold cleanup, mbind, M_bind, bind, storage_unwatch, storage_getMounts, storage_dispose.
  destruct (unwatch st1) as [[[]|e] st2] eqn:H1;
    rewrite (stepped_call _ _ _ _ _ _ _ _ Hlt H1).
  2:{ exists (Throw e), st2, [EUnwatch s (Throw e)].
      split; [by apply run_unwatch_threw|done]. }
  destruct (getMounts "" st2) as [[bases|e] st3] eqn:H2;
    rewrite (stepped_call _ _ _ _ _ _ _ _ Hlt H2).
  2:{ exists (Throw e), st3, [EUnwatch s (Ok tt); EGetMounts s "" (Throw e)].
      split; [by eapply run_getMounts_threw|].
      by rewrite <- !app_assoc. }
  destruct (unmount_each_cases bases st3)
    as [[st4 H3] | (pre & base & post & st4 & e & st5 & -> & H3 & Hb)].
  - rewrite (stepped_unmount_each _ _ _ _ _ _ Hlt H3).
    destruct (dispose st4) as [rd st5] eqn:H4.
    rewrite (stepped_call _ _ _ _ _ _ _ _ Hlt H4).
    exists rd, st5,
      ([EUnwatch s (Ok tt); EGetMounts s "" (Ok bases)]
         ++ unmounted s bases ++ [EDispose s rd]).
    split; [by eapply run_disposed|].
    rewrite <- !app_assoc. cbn [app]. by destruct rd as [[]|e].
  - rewrite (stepped_unmount_fails _ _ _ _ _ _ _ _ _ _ Hlt H3 Hb).
    exists (Throw e), st5,
      ([EUnwatch s (Ok tt); EGetMounts s "" (Ok (pre ++ base :: post))]
         ++ unmounted s pre ++ [EUnmount s base true (Throw e)]).
    split; [by eapply run_unmount_threw|].
    by rewrite <- !app_assoc.
Qed.

(** X8.  The hook a registration adds closes over the options it was given
    and over the very instance [storage] reads as: in every later world,
    the host running that hook runs [onClose] on that instance. *)
Theorem registered_hook_closes_exposed_storage opts w w' :
  plugin opts w = (Ok tt, w') →
  ∃ hook s,
    w_hooks w' = w_hooks w ++ [("onClose", hook)] ∧
    ∀ w'',
      later_world w' w'' →
      server_get "storage" w'' = (Ok (Some s), w'') ∧
      run_hook hook w'' = onClose opts s w''.
Proof.
  rewrite plugin_run.
  destruct (createStorage (engine_options opts)) as [st|e]; [|done].
  intros [= <-].
  exists (length (w_heap w) + 6), (length (w_heap w)).
  destruct (registered_rest opts st w) as (-> & _ & _ & _).
  split; [done|]. intros w'' Hl.
  destruct (later_world_registration _ _ _ _ _ _ Hl (registered_registration opts st w))
    as (Hst & _).
  split; [done|].
  destruct Hl as (_ & _ & Hh). apply run_hook_closure.
  apply (Hh _ (OCloseHook opts (length (w_heap w)))). by rewrite registered_lookup.
Qed.

End HookFrameProperties.

(** ** The factories, further *)

Section FactoryProperties.
Context {E : Engine}.


(** X10.  What the engine's [snapshot] and [restoreSnapshot] complete with,
    a value or an exception, is what [storageSnapshot] and
    [storageSnapshot.restore] complete with, and the instance is left in the
    state the engine left it in. *)
Theorem snapshot_calls_pass_completions w s pf fn r st :
  registration w s pf fn r →
  w_heap w !! s = Some (OStorage st) →
  (∀ base, call_storageSnapshot fn base w
           = ((snapshot base st).1,
              set_heap (<[s := OStorage (snapshot base st).2]>) w)) ∧
  (∀ snap b, call_restore fn snap b w
             = ((restoreSnapshot snap b st).1,
                set_heap (<[s := OStorage (restoreSnapshot snap b st).2]>) w)).
Proof.
  intros Hreg Hs. split.
  - intros base. rewrite (call_storageSnapshot_forwards _ _ _ _ _ _ Hreg).
    apply call_method_run with (st := st); [done|]. by destruct (snapshot base st).
  - intros snap b. rewrite (call_restore_forwards _ _ _ _ _ _ _ Hreg).
    apply call_method_run with (st := st); [done|].
    by destruct (restoreSnapshot snap b st).
Qed.


End FactoryProperties.

(** ** [generate-drivers.mjs] *)

Section FindupProperties.
Import GenerateDrivers.

Lemma string_length_app (a b : string) :
  String.length (a +:+ b) = String.length a + String.length b.
Proof.
  induction a as [|c a IH]; [done|].
  change (String c a +:+ b) with (String c (a +:+ b)).
  cbn [String.length]. by rewrite IH.
Qed.

Lemma string_app_inj_r (a b t : string) : a +:+ t = b +:+ t → a = b.
Proof.
  revert b. induction a as [|c a IH]; intros [|c' b] Heq.
  - done.
  - apply (f_equal String.length) in Heq.
    rewrite !string_length_app in Heq. cbn in Heq. lia.
  - apply (f_equal String.length) in Heq.
    rewrite !string_length_app in Heq. cbn in Heq. lia.
  - cbn in Heq. injection Heq as -> Heq. f_equal. by apply IH.
Qed.

Lemma ends_with_spec suffix s :
  ends_with suffix s = true ↔ ∃ p, s = p +:+ suffix.
Proof.
  induction s as [|c s IH]; cbn [ends_with]; case_bool_decide as Hd.
  - split; [|done]. intros _. exists EmptyString. done.
  - split; [done|]. intros [[|c p] Hp]; cbn in Hp; [by subst|done].
  - split; [|done]. intros _. exists EmptyString. done.
  - rewrite IH. split.
    + intros [p ->]. by exists (String c p).
    + intros [[|c' p] Hp]; cbn in Hp; [done|].
      injection Hp as -> ->. by exists p.
Qed.

Lemma lower_length s : String.length (lower s) = String.length s.
Proof.
  induction s as [|c s IH]; [done|]. cbn [lower String.length]. by rewrite IH.
Qed.

(** The regular expression takes away the suffix the filter asked for, and
    nothing more, also when the name itself ends like one. *)
Lemma replace_dts_suffix name : replace_dts (name +:+ ".d.ts") = name.
Proof.
  induction name as [|c name IH]; [done|].
  change (String c name +:+ ".d.ts") with (String c (name +:+ ".d.ts")).
  cbn [replace_dts]. rewrite bool_decide_false; [by rewrite IH|].
  intros Heq. apply (f_equal String.length) in Heq.
  rewrite lower_length in Heq. cbn in Heq. rewrite string_length_app in Heq.
  cbn in Heq. lia.
Qed.

Lemma meta_of_declaration name : meta_of (name +:+ ".d.ts") = meta_for name.
Proof. unfold meta_of. by rewrite replace_dts_suffix. Qed.

Lemma metas_of_elem_name listing m :
  m ∈ metas_of listing →
  ∃ name, (name +:+ ".d.ts") ∈ listing ∧ m = meta_for name.
Proof.
  unfold metas_of.
  intros (file & -> & [Hend Hin]%list_elem_of_filter)%list_elem_of_fmap.
  apply ends_with_spec in Hend as [name ->].
  exists name. by rewrite meta_of_declaration.
Qed.

(** X12.  [findup] makes a re-export module for exactly the entries whose
    name ends in [.d.ts] as written: the module of [name.d.ts] is
    [src/drivers/name.ts] and re-exports [unstorage/drivers/name]. *)
Theorem findup_metas listing m :
  m ∈ metas_of listing ↔
  ∃ name, (name +:+ ".d.ts") ∈ listing ∧ m = meta_for name.
Proof.
  unfold metas_of. rewrite list_elem_of_fmap. split.
  - intros (file & -> & [Hend Hin]%list_elem_of_filter).
    apply ends_with_spec in Hend as [name ->].
    exists name. by rewrite meta_of_declaration.
  - intros (name & Hin & ->). exists (name +:+ ".d.ts").
    split; [by rewrite meta_of_declaration|].
    apply list_elem_of_filter. split; [|done].
    apply ends_with_spec. by exists name.
Qed.

(** X13.  Entries that differ give modules at different paths: no module
    the script writes overwrites another. *)
Theorem findup_sources_distinct listing :
  NoDup listing → NoDup (source <$> metas_of listing).
Proof.
  intros Hnd. unfold metas_of. rewrite <- list_fmap_compose.
  apply NoDup_fmap_2_strong; [|by apply NoDup_filter].
  intros x y [Hx _]%list_elem_of_filter [Hy _]%list_elem_of_filter.
  apply ends_with_spec in Hx as [nx ->]. apply ends_with_spec in Hy as [ny ->].
  cbn [compose]. rewrite !meta_of_declaration. cbn [source meta_for].
  intros Heq%(inj (String.append "src/drivers/"))%string_app_inj_r. by subst.
Qed.

End FindupProperties.

Section ScriptProperties.
Import GenerateDrivers.
Context {FS : FileSystem}.

Lemma fs_call_run {A} (ev : result A → fs_event) op fs tr :
  fs_call ev op (fs, tr) = ((op fs).1, ((op fs).2, tr ++ [ev (op fs).1])).
Proof. unfold fs_call. by destruct (op fs). Qed.

Lemma fbind_ok {A B} (m : F A) (k : A → F B) d a d' :
  m d = (Ok a, d') → fbind m k d = k a d'.
Proof. unfold fbind. by intros ->. Qed.

Lemma fbind_throw {A B} (m : F A) (k : A → F B) d e d' :
  m d = (Throw e, d') → fbind m k d = (Throw e, d').
Proof. unfold fbind. by intros ->. Qed.

Lemma rmdir_run dir fs tr :
  rmdir dir (fs, tr)
  = (Ok tt, ((rmSync dir true true fs).2,
             tr ++ [FRm dir true true (rmSync dir true true fs).1])).
Proof. unfold rmdir. by rewrite fs_call_run. Qed.

Lemma findup_run dir fs tr :
  findup dir (fs, tr)
  = (match (readdirSync (resolve dir) fs).1 with
     | Ok listing => Ok (metas_of listing)
     | Throw e => Throw e
     end,
     ((readdirSync (resolve dir) fs).2,
      tr ++ [FReaddir (resolve dir) (readdirSync (resolve dir) fs).1])).
Proof.
  unfold findup, fbind. rewrite fs_call_run.
  by destruct (readdirSync (resolve dir) fs) as [[listing|e] fs'].
Qed.

Lemma writes_trace metas fs tr :
  (∃ fs', writes metas (fs, tr) = (Ok tt, (fs', tr ++ written metas))) ∨
  (∃ pre m post e fs',
      metas = pre ++ m :: post ∧
      writes metas (fs, tr)
        = (Throw e, (fs', tr ++ written pre
                            ++ [FWrite (source m) (content m) "utf8" (Throw e)]))).
Proof.
  revert fs tr. induction metas as [|m metas IH]; intros fs tr.
  - left. exists fs. cbn. by rewrite app_nil_r.
  - cbn [writes].
    pose proof (fs_call_run (FWrite (source m) (content m) "utf8")
                  (writeFileSync (source m) (content m) "utf8") fs tr) as Hw.
    fold (writer (source m) (content m)) in Hw.
    destruct (writeFileSync (source m) (content m) "utf8" fs) as [[[]|e] fs1];
      cbn [fst snd] in Hw.
    2:{ rewrite (fbind_throw _ _ _ _ _ Hw).
        right. exists [], m, metas, e, fs1. by split. }
    rewrite (fbind_ok _ _ _ _ _ Hw).
    + destruct (IH fs1 (tr ++ [FWrite (source m) (content m) "utf8" (Ok tt)]))
        as [(fs' & ->) | (pre & m' & post & e & fs' & -> & ->)].
      * left. exists fs'. by rewrite <- app_assoc.
      * right. exists (m :: pre), m', post, e, fs'. split; [done|].
        by rewrite <- app_assoc.
Qed.

(** The runs of [main], by the first call after the removal that throws. *)
Lemma main_cases fs tr :
  ∃ r1 fs',
    (∃ e, main (fs, tr)
          = (Throw e, (fs', tr ++ [FRm "src/drivers" true true r1;
                                   FMkdir "src/drivers" true (Throw e)]))) ∨
    (∃ e, main (fs, tr)
          = (Throw e, (fs', tr ++ [FRm "src/drivers" true true r1;
                                   FMkdir "src/drivers" true (Ok tt);
                                   FReaddir (resolve "node_modules/unstorage/drivers")
                                     (Throw e)]))) ∨
    (∃ listing pre m post e,
       metas_of listing = pre ++ m :: post ∧
       main (fs, tr)
       = (Throw e, (fs', tr ++ [FRm "src/drivers" true true r1;
                                FMkdir "src/drivers" true (Ok tt);
                                FReaddir (resolve "node_modules/unstorage/drivers")
                                  (Ok listing)]
                            ++ written pre
                            ++ [FWrite (source m) (content m) "utf8" (Throw e)]))) ∨
    (∃ listing,
       main (fs, tr)
       = (Ok tt, (fs', tr ++ [FRm "src/drivers" true true r1;
                              FMkdir "src/drivers" true (Ok tt);
                              FReaddir (resolve "node_modules/unstorage/drivers")
                                (Ok listing)]
                          ++ written (metas_of listing)))).
Proof.
  unfold main.
  rewrite (fbind_ok _ _ _ _ _ (rmdir_run "src/drivers" fs tr)).
  destruct (rmSync "src/drivers" true true fs) as [r1 fs1]. cbn [fst snd].
  exists r1.
  pose proof (fs_call_run (FMkdir "src/drivers" true) (mkdirSync "src/drivers" true)
                fs1 (tr ++ [FRm "src/drivers" true true r1])) as Hmk.
  fold (mkdir "src/drivers") in Hmk.
  destruct (mkdirSync "src/drivers" true fs1) as [[[]|e] fs2]; cbn [fst snd] in Hmk.
  2:{ rewrite (fbind_throw _ _ _ _ _ Hmk). rewrite <- app_assoc.
      exists fs2. left. by exists e. }
  rewrite (fbind_ok _ _ _ _ _ Hmk).
  pose proof (findup_run "node_modules/unstorage/drivers" fs2
                (tr ++ [FRm "src/drivers" true true r1]
                    ++ [FMkdir "src/drivers" true (Ok tt)])) as Hfu.
  rewrite app_assoc in Hfu.
  destruct (readdirSync (resolve "node_modules/unstorage/drivers") fs2)
    as [[listing|e] fs3]; cbn [fst snd] in Hfu.
  2:{ rewrite (fbind_throw _ _ _ _ _ Hfu). rewrite <- !app_assoc.
      exists fs3. right. left. by exists e. }
  rewrite (fbind_ok _ _ _ _ _ Hfu).
  match goal with |- context [writes _ (_, ?t)] => set (tr3 := t) end.
  destruct (writes_trace (metas_of listing) fs3 tr3)
    as [(fs' & ->) | (pre & m & post & e & fs' & Hsplit & ->)];
    subst tr3; rewrite <- !app_assoc; exists fs'.
  - do 3 right. by exists listing.
  - do 2 right. left. by exists listing, pre, m, post, e.
Qed.

(** X14.  Every run of the script removes [src/drivers] first and goes on
    whatever the removal did; then it makes the directory, lists the
    engine's driver directory and writes the modules in the order of the
    listing, and the first of these calls that throws ends the run with its
    exception. *)
Theorem script_runs fs tr :
  ∃ evs,
    (main (fs, tr)).2.2 = tr ++ evs ∧
    script_trace evs (main (fs, tr)).1.
Proof.
  destruct (main_cases fs tr)
    as (r1 & fs' & [[e ->] | [[e ->] | [(listing & pre & m & post & e & Hsplit & ->)
                                       | [listing ->]]]]);
    cbn [fst snd]; eexists; (split; [reflexivity|]).
  - apply script_mkdir_threw.
  - apply script_readdir_threw.
  - by apply (script_write_threw r1 listing pre m post e).
  - apply (script_completed r1 listing).
Qed.

Lemma script_spec fs tr r d' evs :
  main (fs, tr) = (r, d') → d'.2 = tr ++ evs → script_trace evs r.
Proof.
  intros Hrun Hevs.
  destruct (main_cases fs tr)
    as (r1 & fs' & [[e Hm] | [[e Hm] | [(listing & pre & m & post & e & Hsplit & Hm)
                                       | [listing Hm]]]]);
    rewrite Hrun in Hm; injection Hm as -> ->; cbn [snd] in Hevs;
    apply app_inv_head in Hevs as <-.
  - apply script_mkdir_threw.
  - apply script_readdir_threw.
  - by apply (script_write_threw r1 listing pre m post e).
  - apply (script_completed r1 listing).
Qed.

Lemma written_no_error metas :
  Forall (λ ev, fs_event_error ev = None) (written metas).
Proof. unfold written. apply Forall_fmap, Forall_forall. done. Qed.

(** X15.  The script completes normally exactly when creating the
    directory, listing the drivers and every write completed normally; a
    failure of the removal makes no difference. *)
Theorem script_completes_iff fs tr r d' evs :
  main (fs, tr) = (r, d') →
  d'.2 = tr ++ evs →
  r = Ok tt ↔ Forall (λ ev, fs_event_error ev = None) evs.
Proof.
  intros Hrun Hevs. pose proof (script_spec _ _ _ _ _ Hrun Hevs) as Hsh.
  split.
  - intros ->. inversion Hsh; subst.
    repeat first [apply Forall_cons; split; [done|] | apply Forall_app; split
                 | apply written_no_error | apply Forall_nil_2 ].
  - intros Hall. inversion Hsh; subst; try done; exfalso;
      rewrite Forall_forall in Hall.
    + by specialize (Hall (FMkdir "src/drivers" true (Throw e))
                          ltac:(apply list_elem_of_further, list_elem_of_here)).
    + by specialize (Hall (FReaddir (resolve "node_modules/unstorage/drivers") (Throw e))
                          ltac:(do 2 apply list_elem_of_further; apply list_elem_of_here)).
    + assert (Hin : FWrite (source m) (content m) "utf8" (Throw e) ∈
                    [FRm "src/drivers" true true r0; FMkdir "src/drivers" true (Ok tt);
                     FReaddir (resolve "node_modules/unstorage/drivers") (Ok listing)]
                      ++ written pre ++ [FWrite (source m) (content m) "utf8" (Throw e)]).
      { rewrite !elem_of_app. right. right. apply list_elem_of_here. }
      by specialize (Hall _ Hin).
Qed.

(** X16.  A call that throws, other than the removal, is the last call of
    the run, and what it throws is what the script throws: nothing is
    listed when the directory could not be made, nothing is written when the
    listing failed, and no later module is written after a write failed. *)
Theorem script_stops_at_first_failure fs tr r d' evs ev e :
  main (fs, tr) = (r, d') →
  d'.2 = tr ++ evs →
  ev ∈ evs →
  fs_event_error ev = Some e →
  r = Throw e ∧ last evs = Some ev.
Proof.
  intros Hrun Hevs Hin Herr. pose proof (script_spec _ _ _ _ _ Hrun Hevs) as Hsh.
  inversion Hsh; subst; cbn [app] in Hin.
  - apply elem_of_cons in Hin as [-> | Hin]; [done|].
    apply list_elem_of_singleton in Hin as ->. by injection Herr as ->.
  - do 2 (apply elem_of_cons in Hin as [-> | Hin]; [done|]).
    apply list_elem_of_singleton in Hin as ->. by injection Herr as ->.
  - do 3 (apply elem_of_cons in Hin as [-> | Hin]; [done|]).
    apply elem_of_app in Hin as [Hin | Hin].
    + unfold written in Hin. apply list_elem_of_fmap in Hin as (b & -> & _). done.
    + apply list_elem_of_singleton in Hin as ->. injection Herr as ->.
      split; [done|].
      by rewrite app_assoc, last_snoc.
  - do 3 (apply elem_of_cons in Hin as [-> | Hin]; [done|]).
    unfold written in Hin. apply list_elem_of_fmap in Hin as (b & -> & _). done.
Qed.

(** X17.  When the script completes normally it has written one module per
    [.d.ts] entry of the listing, in the order of the listing, and nothing
    else. *)
Theorem script_writes_every_module fs tr d' evs :
  main (fs, tr) = (Ok tt, d') →
  d'.2 = tr ++ evs →
  ∃ r listing,
    evs = [FRm "src/drivers" true true r; FMkdir "src/drivers" true (Ok tt);
           FReaddir (resolve "node_modules/unstorage/drivers") (Ok listing)]
            ++ written (metas_of listing).
Proof.
  intros Hrun Hevs. pose proof (script_spec _ _ _ _ _ Hrun Hevs) as Hsh.
  inversion Hsh; subst. by eexists _, _.
Qed.

(** X18.  The script touches nothing but [src/drivers] and reads nothing but
    the engine's driver directory: it removes and makes [src/drivers], lists
    [node_modules/unstorage/drivers], and every file it writes is
    [src/drivers/name.ts] for an entry [name.d.ts] of that listing, with the
    re-export of [name] as its content. *)
Theorem script_is_confined fs tr r d' evs ev :
  main (fs, tr) = (r, d') →
  d'.2 = tr ++ evs →
  ev ∈ evs →
  match ev with
  | FRm path recursive force _ =>
      path = "src/drivers" ∧ recursive = true ∧ force = true
  | FMkdir path recursive _ => path = "src/drivers" ∧ recursive = true
  | FReaddir path _ => path = resolve "node_modules/unstorage/drivers"
  | FWrite file text encoding _ =>
      encoding = "utf8" ∧
      ∃ listing name,
        FReaddir (resolve "node_modules/unstorage/drivers") (Ok listing) ∈ evs ∧
        (name +:+ ".d.ts") ∈ listing ∧
        file = source (meta_for name) ∧ text = content (meta_for name)
  end.
Proof.
  intros Hrun Hevs Hin. pose proof (script_spec _ _ _ _ _ Hrun Hevs) as Hsh.
  inversion Hsh; subst; cbn [app] in Hin.
  - apply elem_of_cons in Hin as [-> | Hin]; [done|].
    by apply list_elem_of_singleton in Hin as ->.
  - do 2 (apply elem_of_cons in Hin as [-> | Hin]; [done|]).
    by apply list_elem_of_singleton in Hin as ->.
  - do 3 (apply elem_of_cons in Hin as [-> | Hin]; [done|]).
    assert (∃ m' res, ev = FWrite (source m') (content m') "utf8" res ∧ m' ∈ metas_of listing)
      as (m' & res & -> & Hm').
    { apply elem_of_app in Hin as [Hin | Hin].
      - unfold written in Hin. apply list_elem_of_fmap in Hin as (b & -> & Hb).
        exists b, (Ok tt). split; [done|].
        match goal with Hs : metas_of _ = _ |- _ => rewrite Hs end.
        apply elem_of_app. by left.
      - apply list_elem_of_singleton in Hin as ->. exists m, (Throw e).
        split; [done|].
        match goal with Hs : metas_of _ = _ |- _ => rewrite Hs end.
        apply elem_of_app. right. apply list_elem_of_here. }
    split; [done|]. apply metas_of_elem_name in Hm' as (name & Hname & ->).
    exists listing, name. split; [|done].
    do 2 apply list_elem_of_further. apply list_elem_of_here.
  - do 3 (apply elem_of_cons in Hin as [-> | Hin]; [done|]).
    unfold written in Hin. apply list_elem_of_fmap in Hin as (b & -> & Hb).
    split; [done|]. apply metas_of_elem_name in Hb as (name & Hname & ->).
    exists listing, name. split; [|done].
    do 2 apply list_elem_of_further. apply list_elem_of_here.
Qed.

End ScriptProperties.

(** ** Shutdowns and script runs on the doubles *)

Section HookScenarios.
Import Scripted.
#[local] Existing Instance scripted_engine.

Example stuck_shutdown :
  (onClose (scripted_options stuck_script) 0 (scripted_world stuck_script)).1
    = Throw (Raised "watcher") ∧
  w_trace (onClose (scripted_options stuck_script) 0 (scripted_world stuck_script)).2
    = [EClose (Throw (Raised "close failed"));
       EUnwatch 0 (Throw (Raised "watcher"))].
Proof. split; reflexivity. Qed.

Lemma failed_cleanup_step_is_last_witness :
  ∃ w',
    onClose (scripted_options stuck_script) 0 (scripted_world stuck_script)
      = (Throw (Raised "watcher"), w') ∧
    w_trace w'
      = w_trace (scripted_world stuck_script)
          ++ [EClose (Throw (Raised "close failed"));
              EUnwatch 0 (Throw (Raised "watcher"))] ∧
    Throw (Raised "watcher") = Throw (Raised "watcher") :> result unit ∧
    last [EClose (Throw (Raised "close failed"));
          EUnwatch 0 (Throw (Raised "watcher"))]
      = Some (EUnwatch 0 (Throw (Raised "watcher"))).
Proof.
  eexists. split; [reflexivity|]. split; [reflexivity|].
  eapply (failed_cleanup_step_is_last
            (scripted_options stuck_script) 0 (scripted_world stuck_script)
            (Throw (Raised "watcher")) _ _
            (EUnwatch 0 (Throw (Raised "watcher"))) (Raised "watcher")).
  - reflexivity.
  - reflexivity.
  - apply list_elem_of_further, list_elem_of_here.
  - reflexivity.
  - reflexivity.
Defined.

Lemma dispose_follows_all_unmounts_witness :
  ∃ w',
    onClose (scripted_options quiet_script) 0 (scripted_world quiet_script)
      = (Throw (Raised "close failed"), w') ∧
    w_trace w'
      = w_trace (scripted_world quiet_script)
          ++ [EClose (Throw (Raised "close failed"));
              EUnwatch 0 (Ok tt);
              EGetMounts 0 "" (Ok [""; "cache"]);
              EUnmount 0 "" true (Ok tt);
              EUnmount 0 "cache" true (Ok tt);
              EDispose 0 (Ok tt)] ∧
    Throw (Raised "close failed")
      = finally_completion
          (call_close (scripted_options quiet_script) 0 (scripted_world quiet_script)).1
          (Ok tt) ∧
    ∃ bases,
      [EClose (Throw (Raised "close failed"));
       EUnwatch 0 (Ok tt);
       EGetMounts 0 "" (Ok [""; "cache"]);
       EUnmount 0 "" true (Ok tt);
       EUnmount 0 "cache" true (Ok tt);
       EDispose 0 (Ok tt)]
      = close_events (scripted_options quiet_script)
          (call_close (scripted_options quiet_script) 0 (scripted_world quiet_script)).1
          ++ [EUnwatch 0 (Ok tt); EGetMounts 0 "" (Ok bases)]
          ++ unmounted 0 bases ++ [EDispose 0 (Ok tt)].
Proof.
  eexists. split; [reflexivity|]. split; [reflexivity|].
  eapply (dispose_follows_all_unmounts
            (scripted_options quiet_script) 0 (scripted_world quiet_script)
            (Throw (Raised "close failed")) _ _ (Ok tt)).
  - reflexivity.
  - reflexivity.
  - do 5 apply list_elem_of_further. apply list_elem_of_here.
Defined.

Lemma unmounts_only_enumerated_mounts_witness :
  ∃ w',
    onClose (scripted_options busy_script) 0 (scripted_world busy_script)
      = (Throw (Raised "busy"), w') ∧
    w_trace w'
      = w_trace (scripted_world busy_script)
          ++ [EClose (Throw (Raised "close failed"));
              EUnwatch 0 (Ok tt);
              EGetMounts 0 "" (Ok [""; "cache"; "tmp"]);
              EUnmount 0 "" true (Ok tt);
              EUnmount 0 "cache" true (Throw (Raised "busy"))] ∧
    0 = 0 ∧ true = true ∧
    ∃ bases,
      EGetMounts 0 "" (Ok bases) ∈
        [EClose (Throw (Raised "close failed"));
         EUnwatch 0 (Ok tt);
         EGetMounts 0 "" (Ok [""; "cache"; "tmp"]);
         EUnmount 0 "" true (Ok tt);
         EUnmount 0 "cache" true (Throw (Raised "busy"))] ∧
      "cache" ∈ bases.
Proof.
  eexists. split; [reflexivity|]. split; [reflexivity|].
  eapply (unmounts_only_enumerated_mounts
            (scripted_options busy_script) 0 (scripted_world busy_script)
            (Throw (Raised "busy")) _ _ 0 "cache" true (Throw (Raised "busy"))).
  - reflexivity.
  - reflexivity.
  - do 4 apply list_elem_of_further. apply list_elem_of_here.
Defined.

Lemma close_callback_called_once_first_witness :
  close (scripted_options quiet_script) = Some failing_close ∧
  w_heap (scripted_world quiet_script) !! 0 = Some (OStorage quiet_script) ∧
  ∃ w',
    onClose (scripted_options quiet_script) 0 (scripted_world quiet_script)
      = (Throw (Raised "close failed"), w') ∧
    w_trace w'
      = w_trace (scripted_world quiet_script)
          ++ [EClose (Throw (Raised "close failed"));
              EUnwatch 0 (Ok tt);
              EGetMounts 0 "" (Ok [""; "cache"]);
              EUnmount 0 "" true (Ok tt);
              EUnmount 0 "cache" true (Ok tt);
              EDispose 0 (Ok tt)] ∧
    ∃ evs',
      [EClose (Throw (Raised "close failed"));
       EUnwatch 0 (Ok tt);
       EGetMounts 0 "" (Ok [""; "cache"]);
       EUnmount 0 "" true (Ok tt);
       EUnmount 0 "cache" true (Ok tt);
       EDispose 0 (Ok tt)]
      = EClose (failing_close quiet_script).1 :: evs' ∧
      Forall (λ ev, is_close ev = false) evs'.
Proof.
  split; [reflexivity|]. split; [reflexivity|].
  eexists. split; [reflexivity|]. split; [reflexivity|].
  eapply (close_callback_called_once_first
            (scripted_options quiet_script) 0 (scripted_world quiet_script)
            failing_close quiet_script (Throw (Raised "close failed"))).
  - reflexivity.
  - reflexivity.
  - reflexivity.
  - reflexivity.
Defined.

Lemma shutdown_order_witness :
  w_heap (scripted_world busy_script) !! 0 = Some (OStorage busy_script) ∧
  ∃ r0 st1 rc st' evs,
    run_close (scripted_options busy_script) busy_script = (r0, st1) ∧
    cleanup_run 0 st1 evs rc st' ∧
    onClose (scripted_options busy_script) 0 (scripted_world busy_script)
      = (finally_completion r0 rc,
         stepped (scripted_world busy_script) 0 st'
           (close_events (scripted_options busy_script) r0 ++ evs)).
Proof.
  split; [reflexivity|].
  apply (shutdown_order (scripted_options busy_script) 0 (scripted_world busy_script)
           busy_script).
  reflexivity.
Defined.

(** The [unmount] of ["cache"] throws: ["tmp"] is not unmounted and
    [dispose] is not called, so the run does not end with [dispose]. *)
Lemma cleanup_order_claim_counterexample :
  ¬ cleanup_order_claim (scripted_options busy_script) 0 (scripted_world busy_script).
Proof.
  intros (r0 & ru & bases & rs & rd & _ & Ht).
  assert (Hlast : last (w_trace (onClose (scripted_options busy_script) 0
                                   (scripted_world busy_script)).2)
                  = Some (EUnmount 0 "cache" true (Throw (Raised "busy"))))
    by reflexivity.
  rewrite Ht, !app_assoc, last_snoc in Hlast. discriminate Hlast.
Qed.


End HookScenarios.

Section MemoryHookScenarios.
Import Memory.
#[local] Existing Instance memory_engine.


Lemma hook_completes_iff_no_call_threw_witness :
  ∃ w',
    onClose memory_options 0 memory_world = (Ok tt, w') ∧
    w_trace w'
      = w_trace memory_world
          ++ [EUnwatch 0 (Ok tt); EGetMounts 0 "" (Ok [""]);
              EUnmount 0 "" true (Ok tt); EDispose 0 (Ok tt)] ∧
    (Ok tt = Ok tt :> result unit ↔
     Forall (λ ev, event_error ev = None)
       [EUnwatch 0 (Ok tt); EGetMounts 0 "" (Ok [""]);
        EUnmount 0 "" true (Ok tt); EDispose 0 (Ok tt)]).
Proof.
  eexists. split; [reflexivity|]. split; [reflexivity|].
  eapply (hook_completes_iff_no_call_threw memory_options 0 memory_world (Ok tt)).
  - reflexivity.
  - reflexivity.
Defined.

Lemma registered_hook_closes_exposed_storage_witness :
  plugin memory_options empty_world =
    (Ok tt, registered memory_options (State ∅ [""] false false) empty_world) ∧
  ∃ hook s,
    w_hooks (registered memory_options (State ∅ [""] false false) empty_world)
      = w_hooks empty_world ++ [("onClose", hook)] ∧
    ∀ w'',
      later_world (registered memory_options (State ∅ [""] false false) empty_world) w'' →
      server_get "storage" w'' = (Ok (Some s), w'') ∧
      run_hook hook w'' = onClose memory_options s w''.
Proof.
  split; [reflexivity|].
  apply (registered_hook_closes_exposed_storage memory_options empty_world).
  reflexivity.
Defined.

Lemma snapshot_calls_pass_completions_witness :
  registration memory_world 0 3 4 5 ∧
  w_heap memory_world !! 0 = Some (OStorage memory_store) ∧
  (∀ base, call_storageSnapshot 4 base memory_world
           = ((snapshot base memory_store).1,
              set_heap (<[0 := OStorage (snapshot base memory_store).2]>) memory_world)) ∧
  (∀ snap b, call_restore 4 snap b memory_world
             = ((restoreSnapshot snap b memory_store).1,
                set_heap (<[0 := OStorage (restoreSnapshot snap b memory_store).2]>)
                  memory_world)).
Proof.
  split; [repeat split; reflexivity|]. split; [reflexivity|].
  apply (snapshot_calls_pass_completions memory_world 0 3 4 5 memory_store).
  - repeat split; reflexivity.
  - reflexivity.
Defined.

End MemoryHookScenarios.

Section DriverScenarios.
Import GenerateDrivers.
#[local] Existing Instance disk_fs.

Example drivers_run :
  (main (drivers_disk, [])).1 = Ok tt ∧
  (main (drivers_disk, [])).2.2
    = [FRm "src/drivers" true true (Throw (Raised "EPERM"));
       FMkdir "src/drivers" true (Ok tt);
       FReaddir "/repo/node_modules/unstorage/drivers"
         (Ok ["memory.d.ts"; "memory.mjs"; "redis.d.ts"; "redis.cjs"; "utils"]);
       FWrite "src/drivers/memory.ts" (content (meta_for "memory")) "utf8" (Ok tt);
       FWrite "src/drivers/redis.ts" (content (meta_for "redis")) "utf8" (Ok tt)].
Proof. split; reflexivity. Qed.

Example readonly_run :
  (main (readonly_disk, [])).1 = Throw (Raised "EACCES") ∧
  (main (readonly_disk, [])).2.2
    = [FRm "src/drivers" true true (Ok tt);
       FMkdir "src/drivers" true (Ok tt);
       FReaddir "/repo/node_modules/unstorage/drivers"
         (Ok ["memory.d.ts"; "memory.mjs"; "redis.d.ts"; "redis.cjs"; "utils"]);
       FWrite "src/drivers/memory.ts" (content (meta_for "memory")) "utf8" (Ok tt);
       FWrite "src/drivers/redis.ts" (content (meta_for "redis")) "utf8"
         (Throw (Raised "EACCES"))].
Proof. split; reflexivity. Qed.

(** A name that ends like the suffix keeps all but the last one, and the
    case of the suffix matters to the filter. *)
Example findup_edge_names :
  metas_of ["a.d.ts.d.ts"; "B.D.TS"; ".d.ts"; "x.d.tsx"]
    = [meta_for "a.d.ts"; meta_for ""].
Proof. reflexivity. Qed.

Lemma findup_sources_distinct_witness :
  NoDup (listing_of drivers_disk) ∧
  NoDup (source <$> metas_of (listing_of drivers_disk)).
Proof.
  assert (Hnd : NoDup (listing_of drivers_disk)).
  { apply (bool_decide_unpack _). reflexivity. }
  split; [exact Hnd|].
  apply (findup_sources_distinct (listing_of drivers_disk)). exact Hnd.
Defined.

Lemma script_completes_iff_witness :
  ∃ d',
    main (drivers_disk, []) = (Ok tt, d') ∧
    d'.2 = [] ++ [FRm "src/drivers" true true (Throw (Raised "EPERM"));
                  FMkdir "src/drivers" true (Ok tt);
                  FReaddir "/repo/node_modules/unstorage/drivers"
                    (Ok ["memory.d.ts"; "memory.mjs"; "redis.d.ts"; "redis.cjs"; "utils"]);
                  FWrite "src/drivers/memory.ts" (content (meta_for "memory")) "utf8" (Ok tt);
                  FWrite "src/drivers/redis.ts" (content (meta_for "redis")) "utf8" (Ok tt)] ∧
    (Ok tt = Ok tt :> result unit ↔
     Forall (λ ev, fs_event_error ev = None)
       [FRm "src/drivers" true true (Throw (Raised "EPERM"));
        FMkdir "src/drivers" true (Ok tt);
        FReaddir "/repo/node_modules/unstorage/drivers"
          (Ok ["memory.d.ts"; "memory.mjs"; "redis.d.ts"; "redis.cjs"; "utils"]);
        FWrite "src/drivers/memory.ts" (content (meta_for "memory")) "utf8" (Ok tt);
        FWrite "src/drivers/redis.ts" (content (meta_for "redis")) "utf8" (Ok tt)]).
Proof.
  eexists. split; [reflexivity|]. split; [reflexivity|].
  eapply (@script_completes_iff disk_fs drivers_disk [] (Ok tt)).
  - reflexivity.
  - reflexivity.
Defined.

Lemma script_stops_at_first_failure_witness :
  ∃ d',
    main (readonly_disk, []) = (Throw (Raised "EACCES"), d') ∧
    d'.2 = [] ++ [FRm "src/drivers" true true (Ok tt);
                  FMkdir "src/drivers" true (Ok tt);
                  FReaddir "/repo/node_modules/unstorage/drivers"
                    (Ok ["memory.d.ts"; "memory.mjs"; "redis.d.ts"; "redis.cjs"; "utils"]);
                  FWrite "src/drivers/memory.ts" (content (meta_for "memory")) "utf8" (Ok tt);
                  FWrite "src/drivers/redis.ts" (content (meta_for "redis")) "utf8"
                    (Throw (Raised "EACCES"))] ∧
    Throw (Raised "EACCES") = Throw (Raised "EACCES") :> result unit ∧
    last [FRm "src/drivers" true true (Ok tt);
          FMkdir "src/drivers" true (Ok tt);
          FReaddir "/repo/node_modules/unstorage/drivers"
            (Ok ["memory.d.ts"; "memory.mjs"; "redis.d.ts"; "redis.cjs"; "utils"]);
          FWrite "src/drivers/memory.ts" (content (meta_for "memory")) "utf8" (Ok tt);
          FWrite "src/drivers/redis.ts" (content (meta_for "redis")) "utf8"
            (Throw (Raised "EACCES"))]
      = Some (FWrite "src/drivers/redis.ts" (content (meta_for "redis")) "utf8"
                (Throw (Raised "EACCES"))).
Proof.
  eexists. split; [reflexivity|]. split; [reflexivity|].
  eapply (@script_stops_at_first_failure disk_fs readonly_disk [] (Throw (Raised "EACCES")) _ _
            (FWrite "src/drivers/redis.ts" (content (meta_for "redis")) "utf8"
               (Throw (Raised "EACCES")))
            (Raised "EACCES")).
  - reflexivity.
  - reflexivity.
  - do 4 apply list_elem_of_further. apply list_elem_of_here.
  - reflexivity.
Defined.

Lemma script_writes_every_module_witness :
  ∃ d',
    main (drivers_disk, []) = (Ok tt, d') ∧
    d'.2 = [] ++ [FRm "src/drivers" true true (Throw (Raised "EPERM"));
                  FMkdir "src/drivers" true (Ok tt);
                  FReaddir "/repo/node_modules/unstorage/drivers"
                    (Ok ["memory.d.ts"; "memory.mjs"; "redis.d.ts"; "redis.cjs"; "utils"]);
                  FWrite "src/drivers/memory.ts" (content (meta_for "memory")) "utf8" (Ok tt);
                  FWrite "src/drivers/redis.ts" (content (meta_for "redis")) "utf8" (Ok tt)] ∧
    ∃ r listing,
      [FRm "src/drivers" true true (Throw (Raised "EPERM"));
       FMkdir "src/drivers" true (Ok tt);
       FReaddir "/repo/node_modules/unstorage/drivers"
         (Ok ["memory.d.ts"; "memory.mjs"; "redis.d.ts"; "redis.cjs"; "utils"]);
       FWrite "src/drivers/memory.ts" (content (meta_for "memory")) "utf8" (Ok tt);
       FWrite "src/drivers/redis.ts" (content (meta_for "redis")) "utf8" (Ok tt)]
      = [FRm "src/drivers" true true r; FMkdir "src/drivers" true (Ok tt);
         FReaddir (resolve "node_modules/unstorage/drivers") (Ok listing)]
          ++ written (metas_of listing).
Proof.
  eexists. split; [reflexivity|]. split; [reflexivity|].
  eapply (@script_writes_every_module disk_fs drivers_disk []).
  - reflexivity.
  - reflexivity.
Defined.

Lemma script_is_confined_witness :
  ∃ d',
    main (readonly_disk, []) = (Throw (Raised "EACCES"), d') ∧
    d'.2 = [] ++ [FRm "src/drivers" true true (Ok tt);
                  FMkdir "src/drivers" true (Ok tt);
                  FReaddir "/repo/node_modules/unstorage/drivers"
                    (Ok ["memory.d.ts"; "memory.mjs"; "redis.d.ts"; "redis.cjs"; "utils"]);
                  FWrite "src/drivers/memory.ts" (content (meta_for "memory")) "utf8" (Ok tt);
                  FWrite "src/drivers/redis.ts" (content (meta_for "redis")) "utf8"
                    (Throw (Raised "EACCES"))] ∧
    "utf8" = "utf8" ∧
    ∃ listing name,
      FReaddir (resolve "node_modules/unstorage/drivers") (Ok listing) ∈
        [FRm "src/drivers" true true (Ok tt);
         FMkdir "src/drivers" true (Ok tt);
         FReaddir "/repo/node_modules/unstorage/drivers"
           (Ok ["memory.d.ts"; "memory.mjs"; "redis.d.ts"; "redis.cjs"; "utils"]);
         FWrite "src/drivers/memory.ts" (content (meta_for "memory")) "utf8" (Ok tt);
         FWrite "src/drivers/redis.ts" (content (meta_for "redis")) "utf8"
           (Throw (Raised "EACCES"))] ∧
      (name +:+ ".d.ts") ∈ listing ∧
      "src/drivers/redis.ts" = source (meta_for name) ∧
      content (meta_for "redis") = content (meta_for name).
Proof.
  eexists. split; [reflexivity|]. split; [reflexivity|].
  eapply (@script_is_confined disk_fs readonly_disk [] (Throw (Raised "EACCES")) _ _
            (FWrite "src/drivers/redis.ts" (content (meta_for "redis")) "utf8"
               (Throw (Raised "EACCES")))).
  - reflexivity.
  - reflexivity.
  - do 4 apply list_elem_of_further. apply list_elem_of_here.
Defined.

End DriverScenarios.
